(** * A fixed-capacity circular buffer and its forward iterator

    Shallow embedding of [src/encryption.hpp]: the class template
    [CircularBuffer<T, cap, std::array<T, cap>>] and its inner class
    [CircularBufferIterator].

    - [int] values are integers of [Z] kept in the 32-bit two's-complement
      range by [to_int]; [unsigned int] and [std::size_t] by [to_uint] and
      [to_size_t].
    - The [std::array] storage is a [list T]; [c.at(i)] is the bounds-checked
      access that throws [std::out_of_range].
    - A method that mutates the object or throws is a function from the
      object to an outcome and the object as the call leaves it, so that
      what an exception leaves behind can be stated.
    - An iterator of the storage ([T*]) is its offset from [c.begin()]. *)

From Stdlib Require Import ZArith Lia.
From stdpp Require Import base list.

Local Open Scope Z_scope.

(** ** Machine integers *)

Definition INT_MAX : Z := 2147483647.

Definition to_int (x : Z) : Z := (x + 2147483648) mod 4294967296 - 2147483648.
Definition to_uint (x : Z) : Z := x mod 4294967296.
Definition to_size_t (x : Z) : Z := x mod 18446744073709551616.

(** ** Exceptions and outcomes *)

Inductive exception : Type :=
  | out_of_range
  | overflow_error
  | underflow_error
  | terminate.

Inductive outcome (A : Type) : Type :=
  | Returns (a : A)
  | Throws (e : exception).
Arguments Returns {A} a.
Arguments Throws {A} e.

Module CircularBuffer.
Section WithElements.

Context {T : Type}.

(** The template argument [cap], an [int]; the storage has at least one
    slot. *)
Variable cap : Z.
Hypothesis cap_pos : 1 <= cap.
Hypothesis cap_int : cap <= INT_MAX.

(** ** The buffer object *)

Record t : Type := Build {
  c : list T;
  _head : Z;
  _tail : Z;
  _size : Z;
  _current : Z;
  _capacity : Z
}.

(** State and exceptions: a call returns its outcome and the object. *)
Definition M (A : Type) : Type := t → outcome A * t.

#[global] Instance M_ret : MRet M := λ A a b, (Returns a, b).
#[global] Instance M_bind : MBind M := λ A B k m b,
  match m b with
  | (Returns a, b') => k a b'
  | (Throws e, b') => (Throws e, b')
  end.
Definition throw {A} (e : exception) : M A := λ b, (Throws e, b).
Definition gets {A} (f : t → A) : M A := λ b, (Returns (f b), b).
Definition modify (f : t → t) : M unit := λ b, (Returns tt, f b).
(** An exception that leaves a [noexcept] function ends the program. *)
Definition noexcept {A} (m : M A) : M A :=
  λ b, match m b with
       | (Throws _, b') => (Throws terminate, b')
       | r => r
       end.
Definition when (g : bool) (m : M unit) : M unit := if g then m else mret tt.

Definition set_c (v : list T) (b : t) : t :=
  Build v (_head b) (_tail b) (_size b) (_current b) (_capacity b).
Definition set_head (v : Z) (b : t) : t :=
  Build (c b) v (_tail b) (_size b) (_current b) (_capacity b).
Definition set_tail (v : Z) (b : t) : t :=
  Build (c b) (_head b) v (_size b) (_current b) (_capacity b).
Definition set_size (v : Z) (b : t) : t :=
  Build (c b) (_head b) (_tail b) v (_current b) (_capacity b).
Definition set_current (v : Z) (b : t) : t :=
  Build (c b) (_head b) (_tail b) (_size b) v (_capacity b).

(** [std::array::at]: the index is converted to [size_t] and checked
    against the array's length. *)
Definition in_range (s : list T) (i : Z) : bool :=
  to_size_t i <? Z.of_nat (length s).

Definition at_ (s : list T) (i : Z) : outcome T :=
  if in_range s i then
    match s !! Z.to_nat (to_size_t i) with
    | Some x => Returns x
    | None => Throws out_of_range
    end
  else Throws out_of_range.

(** [c.at(i) = val] *)
Definition at_assign (i : Z) (val : T) : M unit :=
  s ← gets c;
  if in_range s i then modify (set_c (<[Z.to_nat (to_size_t i) := val]> s))
  else throw out_of_range.

(** [CircularBuffer()]: the counters are zeroed, the storage is left as it
    is found ([init], of length [cap]). *)
Definition CircularBuffer (init : list T) : t :=
  Build init 0 0 0 0 cap.

Definition head (b : t) : outcome T := at_ (c b) (_head b).
Definition tail (b : t) : outcome T := at_ (c b) (_tail b).

Definition push_back (val : T) : M unit :=
  noexcept (
    cur ← gets _current;
    cp ← gets _capacity;
    when (cur >=? cp) (modify (set_current 0));;
    i ← gets _current;
    modify (set_current (to_int (i + 1)));;
    at_assign i val;;
    cur' ← gets _current;
    modify (set_tail (to_int (cur' - 1)));;
    sz ← gets _size;
    modify (set_size (to_int (sz + 1)));;
    when (sz >=? cp) (
      modify (set_size cp);;
      h ← gets _head;
      modify (set_head (to_int (h + 1)));;
      h' ← gets _head;
      when (h' >=? cp) (modify (set_head 0)))).

Definition size (b : t) : Z := to_size_t (_size b).
Definition capacity (b : t) : Z := to_size_t (_capacity b).
Definition empty (b : t) : bool := size b <=? 0.
Definition full (b : t) : bool := to_int (size b) >=? _capacity b.

Definition place_back (val : T) : M unit :=
  f ← gets full;
  when f (throw overflow_error);;
  push_back val.

Definition pop : M unit :=
  sz ← gets _size;
  when (sz <=? 0) (throw underflow_error);;
  h ← gets _head;
  modify (set_head (to_int (h + 1)));;
  h' ← gets _head;
  cp ← gets _capacity;
  when (h' >=? cp) (modify (set_head 0));;
  sz' ← gets _size;
  modify (set_size (to_int (sz' - 1))).

(** ** The iterator

    [_buf] is the storage the iterator refers to; [_begin] and [_cursor]
    are storage iterators, kept as offsets from [_buf.begin()], so that
    [_buf.begin()] is [0] and [_buf.end()] is the length of the storage. *)

Record iterator : Type := BuildIterator {
  _buf : list T;
  _begin : Z;
  _cursor : Z;
  _done : bool
}.

(** [CircularBufferIterator(buf, begin)] *)
Definition CircularBufferIterator (buf : list T) (begin : Z) : iterator :=
  BuildIterator buf begin begin false.

(** [CircularBufferIterator(buf, begin, done)] *)
Definition CircularBufferIterator_done
    (buf : list T) (begin : Z) (done : bool) : iterator :=
  BuildIterator buf begin begin done.

(** [operator*]: reading through a pointer outside the storage is
    undefined, here [None]. *)
Definition operator_deref (it : iterator) : option T :=
  if 0 <=? _cursor it then _buf it !! Z.to_nat (_cursor it) else None.

(** [operator++()] *)
Definition operator_incr (it : iterator) : iterator :=
  let cursor := _cursor it + 1 in
  let cursor :=
    if cursor =? Z.of_nat (length (_buf it)) then 0 else cursor in
  BuildIterator (_buf it) (_begin it) cursor (cursor =? _begin it).

(** [operator==] *)
Definition operator_eq (a it : iterator) : bool :=
  if _done a && _done it then true
  else if negb (_done a) && negb (_done it) then _cursor a =? _cursor it
  else false.

(** [operator!=] *)
Definition operator_ne (a it : iterator) : bool := negb (operator_eq a it).

(** [begin()] *)
Definition begin_offset (b : t) : Z :=
  to_uint (Z.rem (_head b) (_capacity b)).

Definition begin (b : t) : iterator :=
  CircularBufferIterator (c b) (begin_offset b).

(** [end()]: the offset is [_tail + 1 % _capacity], where [%] binds
    tighter than [+]. *)
Definition end_offset (tail capacity : Z) : Z :=
  to_uint (to_int (tail + Z.rem 1 capacity)).

Definition end_ (b : t) : iterator :=
  CircularBufferIterator_done (c b) (end_offset (_tail b) (_capacity b)) (full b).

(** The loop [for (it = first; it != last; ++it) out.push_back( *it )],
    run for at most [fuel] rounds. *)
Inductive traversal : Type :=
  | Finished (out : list T)
  | Undefined
  | Unfinished.

Fixpoint traverse (fuel : nat) (it last : iterator) : traversal :=
  if operator_ne it last then
    match fuel with
    | O => Unfinished
    | S fuel' =>
        match operator_deref it with
        | None => Undefined
        | Some x =>
            match traverse fuel' (operator_incr it) last with
            | Finished out => Finished (x :: out)
            | r => r
            end
        end
    end
  else Finished [].

Definition elements (fuel : nat) (b : t) : traversal :=
  traverse fuel (begin b) (end_ b).

(** ** Sequences of calls *)

Inductive call : Type :=
  | PushBack (val : T)
  | PlaceBack (val : T)
  | Pop.

Definition exec (o : call) : M unit :=
  match o with
  | PushBack val => push_back val
  | PlaceBack val => place_back val
  | Pop => pop
  end.

(** The caller catches what a call throws and goes on; [terminate] ends
    the run. *)
Fixpoint run (os : list call) (b : t) : option t :=
  match os with
  | [] => Some b
  | o :: os' =>
      match exec o b with
      | (Throws terminate, _) => None
      | (_, b') => run os' b'
      end
  end.

(** The loop [for (v : vals) b.push_back(v)]. *)
Definition push_all (vals : list T) : M unit :=
  foldr (λ val rest, push_back val;; rest) (mret tt) vals.

(** The states of a buffer constructed over the storage [init]. *)
Definition reachable (init : list T) (b : t) : Prop :=
  ∃ os, run os (CircularBuffer init) = Some b.

(** ** The queue the specification describes

    The live elements, oldest first: [push] appends and, on a full buffer,
    evicts the oldest; [tryPush] appends unless the buffer is full;
    [popFront] removes the oldest, if any. *)
Definition queue_step (q : list T) (o : call) : list T :=
  match o with
  | PushBack val =>
      if Z.of_nat (length q) <? cap then q ++ [val] else drop 1 q ++ [val]
  | PlaceBack val =>
      if Z.of_nat (length q) <? cap then q ++ [val] else q
  | Pop => drop 1 q
  end.

Definition queue (os : list call) : list T := foldl queue_step [] os.

(** The offset the specification intends for [end()]:
    [(tail + 1) mod capacity]. *)
Definition intended_end_offset (tail capacity : Z) : Z :=
  (tail + 1) mod capacity.

(** ** Well-formed buffers *)

(** The slot of the [i]-th live element, counted from the slot [h]. *)
Definition slot (h i : Z) : Z := if h + i <? cap then h + i else h + i - cap.

(** The counters of a constructed buffer that was never written to. *)
Definition unwritten (b : t) : Prop :=
  _head b = 0 ∧ _tail b = 0 ∧ _size b = 0 ∧ _current b = 0.

(** The counters once a value was written: the write cursor is one past
    [_tail], and [_tail] is [_size - 1] slots after [_head], circularly. *)
Definition written (b : t) : Prop :=
  _current b = _tail b + 1 ∧
  (_tail b + 1 = _head b + _size b
   ∨ _tail b + 1 = _head b + _size b - cap
   ∨ _tail b + 1 = _head b + _size b + cap).

Record wf (b : t) : Prop := {
  wf_storage : Z.of_nat (length (c b)) = cap;
  wf_capacity : _capacity b = cap;
  wf_head : 0 <= _head b < cap;
  wf_tail : 0 <= _tail b < cap;
  wf_size : 0 <= _size b <= cap;
  wf_counters : unwritten b ∨ written b
}.

(** [b] holds the queue [q]: its live elements, oldest first, are [q]. *)
Record holds (q : list T) (b : t) : Prop := {
  holds_wf : wf b;
  holds_size : _size b = Z.of_nat (length q);
  holds_slots : ∀ (i : nat) (x : T),
    q !! i = Some x → c b !! Z.to_nat (slot (_head b) (Z.of_nat i)) = Some x
}.

(** What [push_back] and a [pop] that returns make of a well-formed
    buffer. *)
Definition pushed (val : T) (b : t) : t :=
  let i := if _current b <? cap then _current b else 0 in
  Build (<[Z.to_nat i := val]> (c b))
    (if _size b <? cap then _head b
     else if _head b + 1 <? cap then _head b + 1 else 0)
    i
    (if _size b <? cap then _size b + 1 else cap)
    (i + 1)
    cap.

Definition popped (b : t) : t :=
  Build (c b) (if _head b + 1 <? cap then _head b + 1 else 0) (_tail b)
    (_size b - 1) (_current b) (_capacity b).

(** The iterator [begin()] becomes after [i] increments. *)
Definition advanced (b : t) (i : Z) : iterator :=
  BuildIterator (c b) (_head b) (slot (_head b) i) (i =? cap).

(** The states from which the traversal stops after the live elements:
    the buffer is full, or the slot after [_tail] is a slot of the storage,
    or there is one slot only. *)
Definition iterable (b : t) : Prop :=
  _size b = cap ∨ (written b ∧ _tail b + 1 < cap) ∨ cap = 1.

(** The states from which the traversal cannot stop: [end()] points one
    past the storage and is not marked done, and no iterator that stays in
    the storage compares equal to it. *)
Definition stuck (b : t) : Prop :=
  1 < cap ∧ _size b < cap ∧ _tail b + 1 = cap.

(** ** Machine integers in range *)

Lemma to_int_small (x : Z) :
  -2147483648 <= x <= INT_MAX → to_int x = x.
Proof.
  unfold to_int, INT_MAX. intros Hx.
  rewrite Z.mod_small by lia. lia.
Qed.

Lemma to_uint_small (x : Z) : 0 <= x <= INT_MAX → to_uint x = x.
Proof. unfold to_uint, INT_MAX. intros Hx. apply Z.mod_small. lia. Qed.

Lemma to_size_t_small (x : Z) : 0 <= x <= INT_MAX → to_size_t x = x.
Proof. unfold to_size_t, INT_MAX. intros Hx. apply Z.mod_small. lia. Qed.

Ltac ints :=
  repeat first
    [ rewrite to_int_small by (unfold INT_MAX in *; lia)
    | rewrite to_uint_small by (unfold INT_MAX in *; lia)
    | rewrite to_size_t_small by (unfold INT_MAX in *; lia) ].

(** Case analysis on the first comparison of the goal. *)
Ltac cmp :=
  match goal with
  | |- context [?x >=? ?y] => rewrite (Z.geb_leb x y)
  | |- context [?x <=? ?y] => destruct (Z.leb_spec x y)
  | |- context [?x <? ?y] => destruct (Z.ltb_spec x y)
  | |- context [?x =? ?y] => destruct (Z.eqb_spec x y)
  end.

Ltac run_calls :=
  repeat (cbn -[Z.eqb Z.ltb Z.leb Z.geb Z.add Z.sub Z.of_nat Z.to_nat];
          ints; try cmp);
  try lia; try (exfalso; lia); try (repeat f_equal; lia).

Lemma wf_current b : wf b → 0 <= _current b <= cap.
Proof. intros [? ? ? ? ? [(?&?&?&?)|[? ?]]]; lia. Qed.

Lemma push_back_wf val b :
  wf b → push_back val b = (Returns tt, pushed val b).
Proof.
  intros Hwf. pose proof (wf_current _ Hwf) as Hcur.
  destruct Hwf as [Hlen Hcap Hh Ht Hs _]. destruct b as [s h tl sz cur cp].
  cbn in *. subst cp.
  cbv [push_back noexcept mbind M_bind gets modify when mret M_ret at_assign
       throw set_c set_head set_tail set_size set_current pushed in_range].
  run_calls.
Qed.

Lemma pop_wf b :
  wf b → pop b = if _size b <=? 0 then (Throws underflow_error, b)
                 else (Returns tt, popped b).
Proof.
  intros [Hlen Hcap Hh Ht Hs _]. destruct b as [s h tl sz cur cp].
  cbn in *. subst cp.
  cbv [pop mbind M_bind gets modify when mret M_ret throw set_head set_size
       popped].
  run_calls.
Qed.

Lemma size_wf b : wf b → size b = _size b.
Proof. intros [? ? ? ? ? _]. unfold size. ints. reflexivity. Qed.

Lemma full_wf b : wf b → full b = negb (_size b <? cap).
Proof.
  intros Hwf. unfold full. rewrite size_wf by done.
  destruct Hwf as [? Hcap ? ? ? _]. rewrite Hcap. run_calls.
Qed.

Lemma place_back_wf val b :
  wf b → place_back val b = if _size b <? cap then (Returns tt, pushed val b)
                            else (Throws overflow_error, b).
Proof.
  intros Hwf. cbv [place_back mbind M_bind gets when mret M_ret throw].
  rewrite full_wf by done. destruct (_size b <? cap); cbn; [|done].
  by apply push_back_wf.
Qed.

(** *** The calls keep the buffer well formed *)

Lemma wf_CircularBuffer init :
  Z.of_nat (length init) = cap → wf (CircularBuffer init).
Proof.
  intros Hlen. split; cbn; try lia. left. by repeat split.
Qed.

Lemma wf_pushed val b : wf b → wf (pushed val b) ∧ written (pushed val b).
Proof.
  intros Hwf. pose proof (wf_current _ Hwf) as Hcur.
  destruct Hwf as [Hlen Hcap Hh Ht Hs Hc].
  assert (written (pushed val b)) as Hw.
  { unfold written, unwritten, pushed in *; cbn. run_calls. }
  split; [|done].
  split; [| | | | |by right]; unfold pushed; cbn;
    rewrite ?length_insert; run_calls.
Qed.

Lemma wf_popped b : wf b → 0 < _size b → wf (popped b) ∧ written (popped b).
Proof.
  intros [Hlen Hcap Hh Ht Hs Hc] Hpos.
  assert (written (popped b)) as Hw.
  { unfold written, unwritten, popped in *; cbn. run_calls. }
  split; [|done].
  split; [| | | | |by right]; unfold popped; cbn; run_calls.
Qed.

(** *** The calls act on the live elements as the queue does *)

Lemma holds_CircularBuffer init :
  Z.of_nat (length init) = cap → holds [] (CircularBuffer init).
Proof.
  intros Hlen. split; [by apply wf_CircularBuffer|done|].
  intros i x Hi. by rewrite lookup_nil in Hi.
Qed.

Lemma holds_pushed val q b :
  holds q b → holds (queue_step q (PushBack val)) (pushed val b).
Proof.
  intros [Hwf Hsz Hq]. pose proof (wf_current _ Hwf) as Hcur.
  destruct (wf_pushed val _ Hwf) as [Hwf' _].
  destruct Hwf as [Hlen Hcap Hh Ht Hs Hc].
  split; [done| |].
  - unfold pushed, queue_step; cbn. rewrite <- Hsz.
    destruct (Z.ltb_spec (_size b) cap);
      rewrite length_app, ?length_drop; cbn; lia.
  - intros i x. unfold pushed, queue_step; cbn. rewrite <- Hsz.
    destruct (Z.ltb_spec (_size b) cap) as [Hlt|Hge]; intros Hi;
      apply lookup_app_Some in Hi as [Hi|[Hlen' Hi]].
    + pose proof (lookup_lt_Some _ _ _ Hi).
      rewrite list_lookup_insert_ne; [by apply Hq|].
      unfold written, unwritten, slot in *. run_calls.
    + apply list_lookup_singleton_Some in Hi as [Hi ->].
      assert (Z.of_nat i = _size b) as Hi' by lia.
      replace (Z.to_nat (slot (_head b) (Z.of_nat i)))
        with (Z.to_nat (if _current b <? cap then _current b else 0)).
      * apply list_lookup_insert_eq. run_calls.
      * unfold written, unwritten, slot in *. f_equal. run_calls.
    + pose proof (lookup_lt_Some _ _ _ Hi) as Hi'.
      rewrite length_drop in Hi'. rewrite lookup_drop in Hi.
      apply Hq in Hi.
      rewrite list_lookup_insert_ne.
      * rewrite <- Hi. do 2 f_equal. unfold slot. run_calls.
      * unfold written, unwritten, slot in *. run_calls.
    + apply list_lookup_singleton_Some in Hi as [Hi ->].
      rewrite length_drop in Hlen', Hi.
      assert (Z.of_nat i = _size b - 1) as Hi' by lia.
      replace (Z.to_nat (slot (if _head b + 1 <? cap then _head b + 1 else 0)
                           (Z.of_nat i)))
        with (Z.to_nat (if _current b <? cap then _current b else 0)).
      * apply list_lookup_insert_eq. run_calls.
      * unfold written, unwritten, slot in *. f_equal. run_calls.
Qed.

Lemma holds_popped q b :
  holds q b → 0 < _size b → holds (drop 1 q) (popped b).
Proof.
  intros [Hwf Hsz Hq] Hpos.
  destruct (wf_popped _ Hwf Hpos) as [Hwf' _].
  destruct Hwf as [Hlen Hcap Hh Ht Hs Hc].
  split; [done| |].
  - unfold popped; cbn. rewrite length_drop. lia.
  - intros i x Hi. unfold popped; cbn.
    pose proof (lookup_lt_Some _ _ _ Hi) as Hi'.
    rewrite length_drop in Hi'. rewrite lookup_drop in Hi.
    apply Hq in Hi. rewrite <- Hi. do 2 f_equal. unfold slot. run_calls.
Qed.

Lemma holds_exec o q b :
  holds q b →
  ∃ r, exec o b = (r, snd (exec o b)) ∧ r ≠ Throws terminate
       ∧ holds (queue_step q o) (snd (exec o b)).
Proof.
  intros Hq. pose proof (holds_wf _ _ Hq) as Hwf.
  pose proof (holds_size _ _ Hq) as Hsz.
  destruct o as [val|val|]; cbn [exec].
  - rewrite push_back_wf by done. eexists; split; [done|split; [done|]].
    by apply holds_pushed.
  - rewrite place_back_wf by done.
    pose proof (holds_pushed val _ _ Hq) as Hq'. cbn in *. rewrite <- Hsz.
    rewrite <- Hsz in Hq'.
    destruct (_size b <? cap); eexists; (split; [done|split; [done|]]); done.
  - rewrite pop_wf by done.
    destruct (Z.leb_spec (_size b) 0) as [Hle|Hgt];
      (eexists; split; [done|split; [done|]]); cbn.
    + destruct q; [done|]. cbn in Hsz. lia.
    + by apply holds_popped.
Qed.

Lemma holds_run os q b :
  holds q b → ∃ b', run os b = Some b' ∧ holds (foldl queue_step q os) b'.
Proof.
  revert q b. induction os as [|o os IH]; intros q b Hq; cbn.
  - by exists b.
  - destruct (holds_exec o _ _ Hq) as (r & Hr & Hne & Hq').
    rewrite Hr. destruct (IH _ _ Hq') as (b' & Hrun & Hb').
    exists b'. split; [|done].
    destruct r as [[]|[]]; done.
Qed.

(** Every reachable buffer holds the queue of the calls that led to it. *)
Lemma reachable_holds init b :
  Z.of_nat (length init) = cap →
  reachable init b → ∃ os, run os (CircularBuffer init) = Some b
                           ∧ holds (queue os) b.
Proof.
  intros Hlen [os Hos]. exists os. split; [done|].
  destruct (holds_run os _ _ (holds_CircularBuffer _ Hlen)) as (b' & Hrun & Hb').
  rewrite Hos in Hrun. by injection Hrun as ->.
Qed.

(** ** Traversal *)

Lemma rem_1_cap : Z.rem 1 cap = if cap =? 1 then 0 else 1.
Proof.
  destruct (Z.eqb_spec cap 1) as [->|Hne]; [done|].
  apply Z.rem_small. lia.
Qed.

Lemma end_offset_wf tl :
  0 <= tl < cap → end_offset tl cap = if cap =? 1 then tl else tl + 1.
Proof.
  intros Htl. unfold end_offset. rewrite rem_1_cap.
  destruct (Z.eqb_spec cap 1); ints; lia.
Qed.

Lemma begin_wf b : wf b → begin b = advanced b 0.
Proof.
  intros [Hlen Hcap Hh Ht Hs Hc].
  unfold begin, begin_offset, advanced, CircularBufferIterator, slot.
  rewrite Hcap, Z.rem_small by lia. run_calls.
Qed.

Lemma end_wf b :
  wf b →
  end_ b = BuildIterator (c b) (if cap =? 1 then _tail b else _tail b + 1)
             (if cap =? 1 then _tail b else _tail b + 1)
             (negb (_size b <? cap)).
Proof.
  intros Hwf. unfold end_, CircularBufferIterator_done.
  rewrite full_wf by done. destruct Hwf as [Hlen Hcap Hh Ht Hs Hc].
  by rewrite Hcap, end_offset_wf.
Qed.

Lemma operator_incr_advanced b i :
  wf b → 0 <= i < cap → operator_incr (advanced b i) = advanced b (i + 1).
Proof.
  intros [Hlen Hcap Hh Ht Hs Hc] Hi.
  unfold operator_incr, advanced, slot; cbn. rewrite Hlen.
  run_calls; f_equal; run_calls.
Qed.

Lemma operator_deref_advanced q b (i : nat) x :
  holds q b → q !! i = Some x →
  operator_deref (advanced b (Z.of_nat i)) = Some x.
Proof.
  intros [[Hlen Hcap Hh Ht Hs Hc] Hsz Hq] Hi.
  pose proof (lookup_lt_Some _ _ _ Hi) as Hlt.
  unfold operator_deref, advanced; cbn.
  apply Hq in Hi. rewrite Hi.
  destruct (Z.leb_spec 0 (slot (_head b) (Z.of_nat i))) as [|Hneg]; [done|].
  unfold slot in Hneg. exfalso. revert Hneg. run_calls.
Qed.

Lemma operator_ne_advanced b i :
  wf b → iterable b → 0 <= i <= _size b →
  operator_ne (advanced b i) (end_ b) = negb (i =? _size b).
Proof.
  intros Hwf Hit Hi. rewrite end_wf by done.
  destruct Hwf as [Hlen Hcap Hh Ht Hs Hc].
  unfold operator_ne, operator_eq, advanced, iterable, written, unwritten,
    slot in *; cbn.
  destruct Hit as [Hfull|[[Hw Htl]|Hone]];
    destruct (Z.eqb_spec cap 1); run_calls.
Qed.

Lemma traverse_advanced q b (k : nat) :
  holds q b → iterable b →
  ∀ (fuel i : nat),
    (i + k)%nat = length q → (k ≤ fuel)%nat →
    traverse fuel (advanced b (Z.of_nat i)) (end_ b) = Finished (drop i q).
Proof.
  intros Hq Hit. pose proof (holds_wf _ _ Hq) as Hwf.
  pose proof (holds_size _ _ Hq) as Hsz.
  induction k as [|k IH]; intros fuel i Hi Hfuel.
  - rewrite drop_ge by lia.
    destruct fuel; cbn [traverse]; rewrite operator_ne_advanced by (done || lia);
      destruct (Z.eqb_spec (Z.of_nat i) (_size b)); done || lia.
  - destruct fuel as [|fuel]; [lia|]. cbn [traverse].
    rewrite operator_ne_advanced by (done || lia).
    destruct (Z.eqb_spec (Z.of_nat i) (_size b)); [lia|]. cbn [negb].
    destruct (lookup_lt_is_Some_2 q i) as [x Hx]; [lia|].
    rewrite (operator_deref_advanced _ _ _ _ Hq Hx).
    rewrite operator_incr_advanced by (done || destruct Hwf; lia).
    replace (Z.of_nat i + 1) with (Z.of_nat (S i)) by lia.
    rewrite IH by lia. by rewrite (drop_S _ _ _ Hx).
Qed.

(** From an iterable buffer the traversal yields the live elements. *)
Lemma elements_iterable q b fuel :
  holds q b → iterable b → (length q ≤ fuel)%nat →
  elements fuel b = Finished q.
Proof.
  intros Hq Hit Hfuel. unfold elements.
  rewrite begin_wf by (by destruct Hq).
  by apply (traverse_advanced q b (length q) Hq Hit fuel 0%nat).
Qed.

Lemma operator_incr_in_storage b it :
  wf b → _buf it = c b → 0 <= _cursor it < cap →
  _buf (operator_incr it) = c b ∧ 0 <= _cursor (operator_incr it) < cap.
Proof.
  intros [Hlen _ _ _ _ _] Hbuf Hcur. unfold operator_incr; cbn.
  rewrite Hbuf, Hlen. split; [done|]. run_calls.
Qed.

Lemma operator_eq_stuck b it :
  wf b → stuck b → 0 <= _cursor it < cap → operator_eq it (end_ b) = false.
Proof.
  intros Hwf (Hcap & Hsz & Htl) Hcur. rewrite end_wf by done.
  unfold operator_eq; cbn. destruct (Z.eqb_spec cap 1); [lia|].
  destruct (_done it); run_calls.
Qed.

Lemma iterate_stuck b (n : nat) it :
  wf b → stuck b → _buf it = c b → 0 <= _cursor it < cap →
  operator_eq (Nat.iter n operator_incr it) (end_ b) = false.
Proof.
  intros Hwf Hst Hbuf Hcur. apply operator_eq_stuck; [done..|].
  assert (_buf (Nat.iter n operator_incr it) = c b
          ∧ 0 <= _cursor (Nat.iter n operator_incr it) < cap) as [_ ?]; [|done].
  induction n as [|n [IH1 IH2]]; cbn [Nat.iter]; [done|].
  by apply operator_incr_in_storage.
Qed.

Lemma traverse_stuck b fuel it :
  wf b → stuck b → _buf it = c b → 0 <= _cursor it < cap →
  traverse fuel it (end_ b) = Unfinished.
Proof.
  intros Hwf Hst. revert it.
  induction fuel as [|fuel IH]; intros it Hbuf Hcur; cbn [traverse];
    unfold operator_ne; rewrite operator_eq_stuck by done; cbn [negb]; [done|].
  destruct (lookup_lt_is_Some_2 (_buf it) (Z.to_nat (_cursor it))) as [x Hx].
  { rewrite Hbuf. destruct Hwf. lia. }
  unfold operator_deref. destruct (Z.leb_spec 0 (_cursor it)); [|lia].
  rewrite Hx.
  destruct (operator_incr_in_storage b it) as [Hbuf' Hcur']; [done..|].
  by rewrite IH.
Qed.

Lemma elements_stuck b fuel :
  wf b → stuck b → elements fuel b = Unfinished.
Proof.
  intros Hwf Hst. unfold elements. rewrite begin_wf by done.
  apply traverse_stuck; [done..|]. destruct Hwf. cbn. unfold slot. run_calls.
Qed.

(** A buffer that was never written to, of more than one slot: the
    traversal yields the first slot of the storage. *)
Lemma elements_unwritten b fuel :
  wf b → unwritten b → 1 < cap →
  ∃ x, c b !! 0%nat = Some x ∧ elements (S fuel) b = Finished [x].
Proof.
  intros Hwf (Hh & Htl & Hsz & Hcur) Hcap.
  destruct (lookup_lt_is_Some_2 (c b) 0) as [x Hx]; [destruct Hwf; lia|].
  exists x. split; [done|].
  unfold elements. rewrite begin_wf, end_wf by done.
  destruct Hwf as [Hlen _ _ _ _ _].
  unfold advanced, slot. rewrite Hh, Htl, Hsz.
  destruct (Z.eqb_spec cap 1); [lia|].
  destruct (Z.ltb_spec (0 + 0) cap); [|lia].
  destruct (Z.ltb_spec 0 cap); [|lia].
  destruct (Z.eqb_spec 0 cap); [lia|].
  change (0 + 0) with 0. change (0 + 1) with 1. cbn [traverse].
  unfold operator_ne at 1, operator_eq at 1, operator_deref, operator_incr.
  cbn [_done _cursor _buf _begin andb negb].
  change (0 =? 1) with false. change (0 <=? 0) with true.
  change (Z.to_nat 0) with 0%nat. cbn [negb]. rewrite Hx, Hlen.
  change (0 + 1) with 1. destruct (Z.eqb_spec 1 cap); [lia|].
  by destruct fuel.
Qed.

(** The traversal yields the live elements from the iterable buffers and
    from no other. *)
Lemma elements_iff_iterable q b :
  holds q b → (∃ fuel, elements fuel b = Finished q) ↔ iterable b.
Proof.
  intros Hq. pose proof (holds_wf _ _ Hq) as Hwf.
  pose proof (holds_size _ _ Hq) as Hsz. split.
  - intros [fuel Hfuel].
    destruct (Z.eqb_spec cap 1) as [|Hne]; [by right; right|].
    destruct (Z.eqb_spec (_size b) cap) as [|Hnf]; [by left|].
    destruct (wf_counters _ Hwf) as [Hu|Hw].
    + destruct fuel as [|fuel].
      * unfold elements in Hfuel. rewrite begin_wf, end_wf in Hfuel by done.
        destruct Hu as (Hh & Htl & Hs0 & _).
        unfold advanced, slot in Hfuel. rewrite Hh, Htl, Hs0 in Hfuel.
        revert Hfuel. cbn [traverse]. unfold operator_ne, operator_eq.
        cbn [_done _cursor].
        destruct (Z.eqb_spec cap 1); [lia|].
        destruct (Z.ltb_spec (0 + 0) cap); [|lia].
        destruct (Z.ltb_spec 0 cap); [|lia].
        destruct (Z.eqb_spec 0 cap); [lia|]. done.
      * destruct (elements_unwritten b fuel) as (x & _ & Hx); [done|done|lia|].
        rewrite Hx in Hfuel. injection Hfuel as <-.
        destruct Hu as (_ & _ & Hs0 & _). cbn in Hsz. lia.
    + destruct (Z.ltb_spec (_tail b + 1) cap); [by right; left|].
      rewrite elements_stuck in Hfuel; [done|done|].
      destruct Hwf. unfold stuck. lia.
  - intros Hit. exists (length q). by apply elements_iterable.
Qed.

(** ** Pushing a sequence of values *)

Lemma push_all_holds vals :
  ∀ q b, holds q b →
    ∃ b', push_all vals b = (Returns tt, b')
          ∧ holds (foldl queue_step q (PushBack <$> vals)) b'
          ∧ (vals ≠ [] → written b')
          ∧ (Z.of_nat (length q + length vals) <= cap → _head b' = _head b).
Proof.
  induction vals as [|val vals IH]; intros q b Hq.
  - exists b. by split; [|split; [|split]].
  - pose proof (holds_wf _ _ Hq) as Hwf.
    destruct (IH _ _ (holds_pushed val _ _ Hq)) as (b' & Hb' & Hq' & Hw & Hh).
    exists b'. cbn [push_all foldr fmap list_fmap foldl].
    unfold mbind, M_bind at 1. rewrite push_back_wf by done.
    split; [done|]. split; [done|]. split.
    + intros _. destruct vals as [|val' vals]; [|by apply Hw].
      cbn in Hb'. injection Hb' as <-. by apply wf_pushed.
    + intros Hlen. rewrite Hh.
      * unfold pushed; cbn. rewrite (holds_size _ _ Hq).
        destruct (Z.ltb_spec (Z.of_nat (length q)) cap); [done|].
        cbn [length] in Hlen. lia.
      * cbn [queue_step]. cbn [length] in Hlen.
        destruct (Z.ltb_spec (Z.of_nat (length q)) cap); [|lia].
        rewrite length_app; cbn [length]. lia.
Qed.

(** The queue after pushes: the last [cap] of all the values. *)
Lemma queue_push_all vals :
  ∀ q, Z.of_nat (length q) <= cap →
    foldl queue_step q (PushBack <$> vals)
    = drop (length (q ++ vals) - Z.to_nat cap) (q ++ vals).
Proof.
  induction vals as [|val vals IH]; intros q Hlen.
  - cbn. rewrite app_nil_r. by rewrite (proj2 (Nat.sub_0_le _ _)) by lia.
  - cbn [fmap list_fmap foldl queue_step].
    destruct (Z.ltb_spec (Z.of_nat (length q)) cap) as [Hlt|Hge].
    + rewrite IH by (rewrite length_app; cbn; lia).
      by rewrite <- app_assoc.
    + rewrite IH by (rewrite length_app, length_drop; cbn; lia).
      destruct q as [|x q]; [cbn in Hge; lia|].
      cbn [drop]. rewrite drop_0, <- app_assoc. cbn [app].
      rewrite !length_app. cbn [length] in *. rewrite length_app. cbn [length].
      replace (S (length q + S (length vals)) - Z.to_nat cap)%nat
        with (S (length q + S (length vals) - Z.to_nat cap))%nat by lia.
      done.
Qed.

(** ** The accessors *)

Lemma at_wf b i :
  wf b → 0 <= i < cap →
  ∃ x, c b !! Z.to_nat i = Some x ∧ at_ (c b) i = Returns x.
Proof.
  intros [Hlen _ _ _ _ _] Hi.
  destruct (lookup_lt_is_Some_2 (c b) (Z.to_nat i)) as [x Hx]; [lia|].
  exists x. split; [done|]. unfold at_, in_range. ints. rewrite Hx.
  destruct (Z.ltb_spec i (Z.of_nat (length (c b)))); [done|lia].
Qed.

Lemma head_holds q b x : holds q b → q !! 0%nat = Some x → head b = Returns x.
Proof.
  intros [Hwf Hsz Hq] Hx. apply Hq in Hx.
  destruct (at_wf b (_head b)) as (y & Hy & Hat); [done|by destruct Hwf|].
  unfold head. rewrite Hat. f_equal.
  destruct Hwf. unfold slot in Hx. revert Hx.
  destruct (Z.ltb_spec (_head b + Z.of_nat 0) cap); [|lia].
  replace (_head b + Z.of_nat 0) with (_head b) by lia. congruence.
Qed.

Lemma tail_holds q b y : holds q b → last q = Some y → tail b = Returns y.
Proof.
  intros [Hwf Hsz Hq] Hy. rewrite last_lookup in Hy.
  pose proof (lookup_lt_Some _ _ _ Hy) as Hlt. apply Hq in Hy.
  destruct (at_wf b (_tail b)) as (z & Hz & Hat); [done|by destruct Hwf|].
  unfold tail. rewrite Hat. f_equal.
  assert (slot (_head b) (Z.of_nat (pred (length q))) = _tail b) as Hslot.
  { destruct Hwf as [? ? ? ? ? [(?&?&?&?)|[? ?]]]; unfold slot; run_calls. }
  rewrite Hslot in Hy. congruence.
Qed.

Lemma reachable_wf init b :
  Z.of_nat (length init) = cap → reachable init b → wf b.
Proof.
  intros Hlen Hb. destruct (reachable_holds _ _ Hlen Hb) as (os & _ & Hq).
  by destruct Hq.
Qed.

(** ** The properties of the specification *)

(** X15: pushing up to [cap] values, and at least one unless the buffer
    has a single slot: the buffer holds them all and the traversal yields
    them in the order of the pushes. *)
Lemma push_back_upto_capacity init vals :
  Z.of_nat (length init) = cap →
  Z.of_nat (length vals) <= cap → vals ≠ [] ∨ cap = 1 →
  ∃ b, push_all vals (CircularBuffer init) = (Returns tt, b)
       ∧ size b = Z.of_nat (length vals)
       ∧ (full b = true ↔ Z.of_nat (length vals) = cap)
       ∧ ∀ fuel, (length vals ≤ fuel)%nat → elements fuel b = Finished vals.
Proof.
  intros Hinit Hlen Hne.
  destruct (push_all_holds vals _ _ (holds_CircularBuffer _ Hinit))
    as (b & Hb & Hq & Hw & Hh).
  rewrite queue_push_all in Hq by (cbn; lia). cbn [app length] in *.
  rewrite (proj2 (Nat.sub_0_le _ _)), drop_0 in Hq by lia.
  pose proof (holds_wf _ _ Hq) as Hwf. pose proof (holds_size _ _ Hq) as Hsz.
  exists b. split; [done|]. split; [by rewrite size_wf|]. split.
  - rewrite full_wf, Hsz by done.
    destruct (Z.ltb_spec (Z.of_nat (length vals)) cap); cbn; split; done || lia.
  - intros fuel Hfuel. apply elements_iterable; [done| |done].
    destruct Hne as [Hne|Hone]; [|by right; right].
    destruct (Z.eqb_spec (_size b) cap); [by left|]. right; left.
    specialize (Hw Hne). specialize (Hh Hlen). cbn in Hh.
    split; [done|]. destruct Hw as [_ Hw]. destruct Hwf.
    destruct vals; [done|]. cbn [length] in Hsz. lia.
Qed.

(** C3: for every [k >= 1], after [cap + k] values are pushed into a new
    buffer, every [push_back] having returned, [size()] is [cap] and the
    traversal from [begin()] to [end()] yields the last [cap] values in the
    order of the pushes: the first [k] are gone. *)
Theorem push_back_beyond_capacity init vals (k : nat) :
  Z.of_nat (length init) = cap → (1 ≤ k)%nat →
  Z.of_nat (length vals) = cap + Z.of_nat k →
  ∃ b, push_all vals (CircularBuffer init) = (Returns tt, b)
       ∧ size b = cap
       ∧ ∀ fuel, (Z.to_nat cap ≤ fuel)%nat →
           elements fuel b = Finished (drop k vals).
Proof.
  intros Hinit Hk Hlen.
  destruct (push_all_holds vals _ _ (holds_CircularBuffer _ Hinit))
    as (b & Hb & Hq & _ & _).
  rewrite queue_push_all in Hq by (cbn; lia). cbn [app] in Hq.
  replace (length vals - Z.to_nat cap)%nat with k in Hq by lia.
  pose proof (holds_wf _ _ Hq) as Hwf. pose proof (holds_size _ _ Hq) as Hsz.
  rewrite length_drop in Hsz.
  exists b. split; [done|]. split; [rewrite size_wf by done; lia|].
  intros fuel Hfuel. apply elements_iterable; [done|left; lia|].
  rewrite length_drop. lia.
Qed.

(** C4: on a reachable buffer [place_back] throws exactly when [size()] is
    [cap], what it throws is [overflow_error], and the buffer is then left
    as it was; when [size()] is less than [cap] it returns and leaves the
    buffer as [push_back] of the same value does. *)
Theorem place_back_overflow init b val :
  Z.of_nat (length init) = cap → reachable init b →
  ((∃ e, fst (place_back val b) = Throws e) ↔ size b = cap)
  ∧ (size b = cap → place_back val b = (Throws overflow_error, b))
  ∧ (size b < cap →
       fst (place_back val b) = Returns tt
       ∧ place_back val b = push_back val b).
Proof.
  intros Hinit Hb. pose proof (reachable_wf _ _ Hinit Hb) as Hwf.
  rewrite size_wf, place_back_wf, push_back_wf by done.
  destruct Hwf as [_ _ _ _ Hs _].
  destruct (Z.ltb_spec (_size b) cap); cbn; repeat split; try (done || lia).
  - intros [e He]. done.
  - intros _. by eexists.
Qed.

(** C5: on a reachable buffer [pop] throws exactly when [size()] is [0],
    and what it throws is [underflow_error]; when [size()] is positive it
    returns, [_head] moves on by one slot, from the last slot to slot [0],
    [size()] goes down by one, and if [size()] was at least [2] then
    [head()] returns the second oldest element of the buffer before. *)
Theorem pop_underflow init os b :
  Z.of_nat (length init) = cap → run os (CircularBuffer init) = Some b →
  ((∃ e, fst (pop b) = Throws e) ↔ size b = 0)
  ∧ (size b = 0 → pop b = (Throws underflow_error, b))
  ∧ (0 < size b →
       ∃ b', pop b = (Returns tt, b')
             ∧ _head b' = (if _head b =? cap - 1 then 0 else _head b + 1)
             ∧ _head b' = (_head b + 1) mod cap
             ∧ size b' = size b - 1
             ∧ (2 <= size b →
                  ∃ x, queue os !! 1%nat = Some x ∧ head b' = Returns x)).
Proof.
  intros Hinit Hrun.
  destruct (holds_run os _ _ (holds_CircularBuffer _ Hinit)) as (b0 & Hb0 & Hq).
  rewrite Hrun in Hb0. injection Hb0 as <-. fold (queue os) in Hq.
  pose proof (holds_wf _ _ Hq) as Hwf. pose proof (holds_size _ _ Hq) as Hsz.
  rewrite size_wf, pop_wf by done.
  pose proof (wf_size _ Hwf) as Hs. pose proof (wf_head _ Hwf) as Hh.
  destruct (Z.leb_spec (_size b) 0) as [Hle|Hgt]; cbn.
  - split; [split; [lia|by eexists]|]. split; [done|lia].
  - split; [split; [by intros [e He]|lia]|]. split; [lia|]. intros _.
    exists (popped b). split; [done|].
    pose proof (holds_popped _ _ Hq Hgt) as Hq'.
    pose proof (holds_wf _ _ Hq') as Hwf'.
    rewrite size_wf by done. unfold popped at 1 2 3; cbn.
    split; [run_calls|]. split; [|split; [done|]].
    + destruct (Z.ltb_spec (_head b + 1) cap).
      * by rewrite Z.mod_small by lia.
      * replace (_head b + 1) with cap by lia. by rewrite Z.mod_same by lia.
    + intros Hge.
      destruct (lookup_lt_is_Some_2 (queue os) 1) as [x Hx]; [lia|].
      exists x. split; [done|]. apply (head_holds _ _ _ Hq').
      by rewrite lookup_drop.
Qed.

(** X20: on every reachable buffer the indices [_head] and [_tail] are
    slots of the storage, so the checked access of [head()] and [tail()]
    throws nothing and returns the value stored there, whatever [size()]
    is; when [size()] is positive these are the oldest and the newest live
    element. *)
Theorem head_tail_return init os b :
  Z.of_nat (length init) = cap → run os (CircularBuffer init) = Some b →
  ∃ x y, c b !! Z.to_nat (_head b) = Some x ∧ head b = Returns x
         ∧ c b !! Z.to_nat (_tail b) = Some y ∧ tail b = Returns y
         ∧ (0 < size b → queue os !! 0%nat = Some x ∧ last (queue os) = Some y).
Proof.
  intros Hinit Hrun.
  destruct (holds_run os _ _ (holds_CircularBuffer _ Hinit)) as (b0 & Hb0 & Hq).
  rewrite Hrun in Hb0. injection Hb0 as <-. fold (queue os) in Hq.
  pose proof (holds_wf _ _ Hq) as Hwf. pose proof (holds_size _ _ Hq) as Hsz.
  destruct (at_wf b (_head b)) as (x & Hx & Hhead); [done|by destruct Hwf|].
  destruct (at_wf b (_tail b)) as (y & Hy & Htail); [done|by destruct Hwf|].
  exists x, y. repeat (split; [done|]).
  rewrite size_wf by done. intros Hpos.
  destruct (lookup_lt_is_Some_2 (queue os) 0) as [x' Hx']; [lia|].
  destruct (lookup_lt_is_Some_2 (queue os) (pred (length (queue os))))
    as [y' Hy']; [lia|].
  rewrite <- last_lookup in Hy'.
  pose proof (head_holds _ _ _ Hq Hx') as Hhead'.
  pose proof (tail_holds _ _ _ Hq Hy') as Htail'.
  unfold head in Hhead'. unfold tail in Htail'. split; congruence.
Qed.

(** C7, as the code has it: after the constructor and after every call of
    a run the counters satisfy [0 <= _head < cap], [0 <= _tail < cap],
    [0 <= _current <= cap] and [0 <= _size <= cap]; [_current] is [cap]
    after a write to the last slot, until the next [push_back] wraps it. *)
Theorem counters_in_range init b :
  Z.of_nat (length init) = cap → reachable init b →
  0 <= _head b < cap ∧ 0 <= _tail b < cap ∧ 0 <= _current b <= cap
  ∧ 0 <= _size b <= cap ∧ size b = _size b.
Proof.
  intros Hinit Hb. pose proof (reachable_wf _ _ Hinit Hb) as Hwf.
  pose proof (wf_current _ Hwf). rewrite size_wf by done.
  by destruct Hwf.
Qed.

(** C8, as the code has it: for every capacity above [1] and every [tail]
    with [0 <= tail < capacity], the offset [end()] computes is
    [tail + (1 mod capacity)], that is [tail + 1]; it is the intended
    [(tail + 1) mod capacity] whenever [tail] is not the last slot, and
    differs from it exactly when [tail] is the last slot, where [end()]
    computes [capacity] and [0] was intended. *)
Theorem end_offset_differs tl :
  1 < cap → 0 <= tl < cap →
  end_offset tl cap = tl + 1 mod cap
  ∧ end_offset tl cap = tl + 1
  ∧ (end_offset tl cap ≠ intended_end_offset tl cap ↔ tl = cap - 1)
  ∧ (tl = cap - 1 → end_offset tl cap = cap ∧ intended_end_offset tl cap = 0).
Proof.
  intros Hcap Htl. rewrite end_offset_wf by done. unfold intended_end_offset.
  destruct (Z.eqb_spec cap 1); [lia|].
  rewrite (Z.mod_small 1 cap) by lia. split; [done|]. split; [done|].
  destruct (Z.eq_dec tl (cap - 1)) as [->|Hne].
  - replace (cap - 1 + 1) with cap by lia. rewrite Z.mod_same by lia.
    split; [split; [done|lia]|]. done.
  - rewrite Z.mod_small by lia. split; [split; [done|lia]|]. done.
Qed.

(** C9: for two iterators over the same storage [operator==] is true when
    both are done, is the equality of the cursors when neither is done, and
    is false when exactly one is done; [operator!=] is its negation. *)
Theorem operator_eq_cases (buf : list T) (b1 b2 p1 p2 : Z) (d1 d2 : bool) :
  let a := BuildIterator buf b1 p1 d1 in
  let it := BuildIterator buf b2 p2 d2 in
  operator_eq a it
  = match d1, d2 with
    | true, true => true
    | false, false => p1 =? p2
    | _, _ => false
    end
  ∧ operator_ne a it = negb (operator_eq a it).
Proof. by destruct d1, d2. Qed.

Lemma pop_returns b : 0 < _size b → fst (pop b) = Returns tt.
Proof.
  intros Hpos.
  cbv [pop mbind M_bind gets modify when mret M_ret throw set_head set_size].
  destruct (Z.leb_spec (_size b) 0); [lia|]. cbn.
  by destruct (to_int (_head b + 1) >=? _capacity b).
Qed.

(** C10: on a buffer with [size() > 0], a [pop] that returns leaves the
    storage, [_tail], the write cursor [_current] and [_capacity] as they
    were: only [_head] and [_size] change. *)
Theorem pop_frame b b' :
  0 < size b → pop b = (Returns tt, b') →
  c b' = c b ∧ _tail b' = _tail b ∧ _current b' = _current b
  ∧ _capacity b' = _capacity b.
Proof.
  intros _.
  cbv [pop mbind M_bind gets modify when mret M_ret throw set_head set_size].
  destruct (_size b <=? 0); cbn; [done|].
  destruct (to_int (_head b + 1) >=? _capacity b); cbn;
    intros [= <-]; done.
Qed.

(** ** Further properties of the calls *)

Lemma run_holds init os b :
  Z.of_nat (length init) = cap → run os (CircularBuffer init) = Some b →
  holds (queue os) b.
Proof.
  intros Hinit Hrun.
  destruct (holds_run os _ _ (holds_CircularBuffer _ Hinit)) as (b0 & Hb0 & Hq).
  rewrite Hrun in Hb0. by injection Hb0 as <-.
Qed.

Lemma slot_mod h i : 0 <= h + i < 2 * cap → slot h i = (h + i) mod cap.
Proof.
  intros Hi. unfold slot. destruct (Z.ltb_spec (h + i) cap).
  - by rewrite Z.mod_small by lia.
  - replace (h + i) with (h + i - cap + 1 * cap) at 2 by lia.
    rewrite Z.mod_add by lia. by rewrite Z.mod_small by lia.
Qed.

(** X1: whatever calls are made on a new buffer, the run goes on to its
    end, that is no [push_back] ends the program through an access out of
    the storage, and on the buffer it leaves [push_back] returns. *)
Theorem push_back_never_terminates init os :
  Z.of_nat (length init) = cap →
  ∃ b, run os (CircularBuffer init) = Some b
       ∧ ∀ val, fst (push_back val b) = Returns tt.
Proof.
  intros Hinit.
  destruct (holds_run os _ _ (holds_CircularBuffer _ Hinit)) as (b & Hb & Hq).
  exists b. split; [done|]. intros val.
  by rewrite push_back_wf by (by destruct Hq).
Qed.

(** X2: after any run [capacity()] is [cap] and the storage still has
    [cap] slots, [size()] is the number of live elements, [empty()] holds
    exactly when [size()] is [0], [full()] exactly when [size()] is [cap],
    and the two never hold together. *)
Theorem observers_agree init os b :
  Z.of_nat (length init) = cap → run os (CircularBuffer init) = Some b →
  capacity b = cap
  ∧ Z.of_nat (length (c b)) = cap
  ∧ size b = Z.of_nat (length (queue os))
  ∧ (empty b = true ↔ size b = 0)
  ∧ (full b = true ↔ size b = cap)
  ∧ (empty b && full b = false).
Proof.
  intros Hinit Hrun. pose proof (run_holds _ _ _ Hinit Hrun) as Hq.
  pose proof (holds_wf _ _ Hq) as Hwf. pose proof (holds_size _ _ Hq) as Hsz.
  unfold empty. rewrite full_wf, size_wf by done.
  destruct Hwf as [Hlen Hcap Hh Ht Hs _].
  split; [unfold capacity; rewrite Hcap; by ints|].
  split; [done|]. split; [done|].
  destruct (Z.leb_spec (_size b) 0), (Z.ltb_spec (_size b) cap); cbn;
    repeat split; done || lia.
Qed.

(** X3: on a reachable buffer [push_back] returns; afterwards [tail()] is
    the value pushed, [size()] is one more than before but never above
    [cap], and the storage differs from the one before in one slot only,
    the one the write cursor pointed to, taken circularly. *)
Theorem push_back_writes_one_slot init b val :
  Z.of_nat (length init) = cap → reachable init b →
  ∃ b', push_back val b = (Returns tt, b')
        ∧ tail b' = Returns val
        ∧ size b' = Z.min (size b + 1) cap
        ∧ _tail b' = _current b mod cap
        ∧ c b' = <[Z.to_nat (_current b mod cap) := val]> (c b)
        ∧ ∀ j, j ≠ Z.to_nat (_current b mod cap) → c b' !! j = c b !! j.
Proof.
  intros Hinit Hb. pose proof (reachable_wf _ _ Hinit Hb) as Hwf.
  pose proof (wf_current _ Hwf) as Hcur.
  destruct (wf_pushed val _ Hwf) as [Hwf' _].
  exists (pushed val b). split; [by apply push_back_wf|].
  rewrite !size_wf by done.
  assert (_current b mod cap = if _current b <? cap then _current b else 0)
    as Hmod.
  { destruct (Z.ltb_spec (_current b) cap).
    - by rewrite Z.mod_small by lia.
    - replace (_current b) with cap by lia. by rewrite Z.mod_same by lia. }
  rewrite Hmod. destruct Hwf as [Hlen Hcap Hh Ht Hs _].
  split; [|split; [|split; [done|split; [done|]]]].
  - destruct (at_wf (pushed val b) (_tail (pushed val b)))
      as (x & Hx & Hat); [done|by destruct Hwf'|].
    unfold tail. rewrite Hat. f_equal. revert Hx. unfold pushed; cbn.
    rewrite list_lookup_insert_eq; [congruence|]. run_calls.
  - unfold pushed; cbn. run_calls.
  - intros j Hj. unfold pushed; cbn. by rewrite list_lookup_insert_ne.
Qed.

(** X4: on a reachable buffer that is not empty, [place_back] leaves what
    [head()] returns as it was, whether it returns or throws, and so does
    [push_back] unless the buffer is full. *)
Theorem head_kept_by_insertion init b val :
  Z.of_nat (length init) = cap → reachable init b → 0 < size b →
  head (snd (place_back val b)) = head b
  ∧ (size b < cap → head (snd (push_back val b)) = head b).
Proof.
  intros Hinit Hb. destruct (reachable_holds _ _ Hinit Hb) as (os & _ & Hq).
  pose proof (holds_wf _ _ Hq) as Hwf. pose proof (holds_size _ _ Hq) as Hsz.
  rewrite size_wf by done. intros Hpos.
  destruct (lookup_lt_is_Some_2 (queue os) 0) as [x Hx]; [lia|].
  rewrite (head_holds _ _ _ Hq Hx).
  rewrite place_back_wf, push_back_wf by done.
  pose proof (holds_pushed val _ _ Hq) as Hq'. cbn [queue_step] in Hq'.
  rewrite <- Hsz in Hq'.
  destruct (Z.ltb_spec (_size b) cap); cbn [snd].
  - assert (head (pushed val b) = Returns x) as Hhead.
    { apply (head_holds _ _ _ Hq'). by rewrite lookup_app_l by lia. }
    by split.
  - split; [by apply (head_holds _ _ _ Hq)|lia].
Qed.

(** X5: [push_back] on a full reachable buffer evicts the oldest element:
    afterwards [head()] returns the element that was second oldest, or,
    when there is one slot only, the value pushed. *)
Theorem push_back_evicts_oldest init os b val :
  Z.of_nat (length init) = cap → run os (CircularBuffer init) = Some b →
  size b = cap →
  (2 <= cap → ∃ x, queue os !! 1%nat = Some x
                   ∧ head (snd (push_back val b)) = Returns x)
  ∧ (cap = 1 → head (snd (push_back val b)) = Returns val).
Proof.
  intros Hinit Hrun. pose proof (run_holds _ _ _ Hinit Hrun) as Hq.
  pose proof (holds_wf _ _ Hq) as Hwf. pose proof (holds_size _ _ Hq) as Hsz.
  rewrite size_wf, push_back_wf by done. intros Hfull. cbn [snd].
  pose proof (holds_pushed val _ _ Hq) as Hq'. cbn [queue_step] in Hq'.
  destruct (Z.ltb_spec (Z.of_nat (length (queue os))) cap); [lia|].
  split.
  - intros Hcap.
    destruct (lookup_lt_is_Some_2 (queue os) 1) as [x Hx]; [lia|].
    exists x. split; [done|]. apply (head_holds _ _ _ Hq').
    rewrite lookup_app_l by (rewrite length_drop; lia).
    by rewrite lookup_drop.
  - intros Hone. apply (head_holds _ _ _ Hq').
    rewrite lookup_app_r by (rewrite length_drop; lia).
    rewrite length_drop.
    by replace (0 - (length (queue os) - 1))%nat with 0%nat by lia.
Qed.

(** X6: the elements leave in the order they came: after [i] calls of
    [pop] on a reachable buffer with more than [i] live elements, [head()]
    returns the live element number [i], counted from the oldest, and
    [size()] is [i] less. *)
Theorem head_after_pops init os b (i : nat) x :
  Z.of_nat (length init) = cap → run os (CircularBuffer init) = Some b →
  queue os !! i = Some x →
  head (Nat.iter i (λ s, snd (pop s)) b) = Returns x
  ∧ size (Nat.iter i (λ s, snd (pop s)) b) = size b - Z.of_nat i.
Proof.
  intros Hinit Hrun Hx. pose proof (run_holds _ _ _ Hinit Hrun) as Hq.
  assert (holds (drop i (queue os)) (Nat.iter i (λ s, snd (pop s)) b)) as Hi.
  { pose proof (lookup_lt_Some _ _ _ Hx) as Hlt. clear Hx.
    induction i as [|i IH]; [by rewrite drop_0|].
    specialize (IH ltac:(lia)). rewrite Nat.iter_succ.
    pose proof (holds_size _ _ IH) as Hsz. rewrite length_drop in Hsz.
    rewrite pop_wf by (by destruct IH).
    destruct (Z.leb_spec (_size (Nat.iter i (λ s, snd (pop s)) b)) 0); [lia|].
    cbn [snd]. replace (S i) with (i + 1)%nat by lia. rewrite <- drop_drop.
    apply holds_popped; [done|lia]. }
  split.
  - apply (head_holds _ _ _ Hi). rewrite lookup_drop.
    by replace (i + 0)%nat with i by lia.
  - rewrite (size_wf _ (holds_wf _ _ Hi)), (size_wf _ (holds_wf _ _ Hq)).
    rewrite (holds_size _ _ Hi), (holds_size _ _ Hq), length_drop.
    pose proof (lookup_lt_Some _ _ _ Hx). lia.
Qed.

(** ** Further properties of the iterator *)

Lemma operator_incr_cursor it :
  0 <= _cursor it < Z.of_nat (length (_buf it)) →
  _buf (operator_incr it) = _buf it
  ∧ 0 <= _cursor (operator_incr it) < Z.of_nat (length (_buf it)).
Proof using Type.
  intros Hcur. unfold operator_incr; cbn. split; [done|].
  destruct (Z.eqb_spec (_cursor it + 1) (Z.of_nat (length (_buf it)))); lia.
Qed.

Lemma traverse_defined fuel :
  ∀ it last, 0 <= _cursor it < Z.of_nat (length (_buf it)) →
    traverse fuel it last ≠ Undefined.
Proof using Type.
  induction fuel as [|fuel IH]; intros it last Hcur; cbn [traverse];
    destruct (operator_ne it last); try done.
  destruct (lookup_lt_is_Some_2 (_buf it) (Z.to_nat (_cursor it))) as [x Hx];
    [lia|].
  unfold operator_deref. destruct (Z.leb_spec 0 (_cursor it)); [|lia].
  rewrite Hx. destruct (operator_incr_cursor it Hcur) as [Hbuf Hcur'].
  rewrite <- Hbuf in Hcur'. specialize (IH (operator_incr it) last Hcur').
  by destruct (traverse fuel (operator_incr it) last).
Qed.

(** X7: the traversal of a reachable buffer never reads outside the
    storage: whatever the number of rounds, every iterator it dereferences
    points to a slot. *)
Theorem traversal_stays_in_storage init b fuel :
  Z.of_nat (length init) = cap → reachable init b →
  elements fuel b ≠ Undefined.
Proof.
  intros Hinit Hb. pose proof (reachable_wf _ _ Hinit Hb) as Hwf.
  unfold elements. apply traverse_defined. rewrite begin_wf by done.
  destruct Hwf as [Hlen _ Hh _ _ _]. unfold advanced, slot; cbn.
  rewrite Hlen. destruct (Z.ltb_spec (_head b + 0) cap); lia.
Qed.

(** X8: an iterator constructed at a slot [p] of a storage of [n] slots is,
    after [k <= n] increments, at the slot [(p + k) mod n], and it is marked
    done exactly when [k = n], the cursor being back at [p]: [operator++]
    completes the ring in [n] steps, never sooner. *)
Theorem operator_incr_lap (buf : list T) (p : Z) (k : nat) :
  0 <= p < Z.of_nat (length buf) → (k ≤ length buf)%nat →
  Nat.iter k operator_incr (CircularBufferIterator buf p)
  = BuildIterator buf p ((p + Z.of_nat k) mod Z.of_nat (length buf))
      (Nat.eqb k (length buf)).
Proof using Type.
  intros Hp. induction k as [|k IH]; intros Hk.
  - cbn [Nat.iter]. unfold CircularBufferIterator.
    rewrite Z.add_0_r, Z.mod_small by lia.
    destruct (Nat.eqb_spec 0 (length buf)); [lia|done].
  - rewrite Nat.iter_succ, IH by lia. unfold operator_incr.
    cbn [_buf _begin _cursor _done].
    remember (Z.of_nat (length buf)) as n eqn:Hn.
    assert ((p + Z.of_nat (S k)) mod n
            = if (p + Z.of_nat k) mod n + 1 =? n then 0
              else (p + Z.of_nat k) mod n + 1) as Hmod.
    { replace (p + Z.of_nat (S k)) with (p + Z.of_nat k + 1) by lia.
      rewrite <- Z.add_mod_idemp_l by lia.
      pose proof (Z.mod_pos_bound (p + Z.of_nat k) n ltac:(lia)).
      destruct (Z.eqb_spec ((p + Z.of_nat k) mod n + 1) n) as [->|].
      - by rewrite Z.mod_same by lia.
      - by rewrite Z.mod_small by lia. }
    rewrite <- Hmod. f_equal.
    assert ((p + Z.of_nat (S k)) mod n
            = if p + Z.of_nat (S k) <? n then p + Z.of_nat (S k)
              else p + Z.of_nat (S k) - n) as ->.
    { destruct (Z.ltb_spec (p + Z.of_nat (S k)) n).
      - by rewrite Z.mod_small by lia.
      - replace (p + Z.of_nat (S k))
          with (p + Z.of_nat (S k) - n + 1 * n) at 1 by lia.
        rewrite Z.mod_add by lia. by rewrite Z.mod_small by lia. }
    destruct (Nat.eqb_spec (S k) (length buf)),
      (Z.ltb_spec (p + Z.of_nat (S k)) n);
      match goal with |- (?x =? ?y) = _ => destruct (Z.eqb_spec x y) end;
      done || lia.
Qed.

(** X9: [operator==] is an equivalence on iterators, reflexive, symmetric
    and transitive, and no iterator differs from itself by [operator!=]. *)
Theorem operator_eq_equivalence (a b d : iterator) :
  operator_eq a a = true
  ∧ operator_ne a a = false
  ∧ operator_eq a b = operator_eq b a
  ∧ implb (operator_eq a b && operator_eq b d) (operator_eq a d) = true.
Proof using Type.
  unfold operator_ne, operator_eq.
  destruct (_done a), (_done b), (_done d); cbn;
    rewrite ?Z.eqb_refl; repeat split; try done; try apply Z.eqb_sym.
  - by destruct (_cursor a =? _cursor b).
  - destruct (Z.eqb_spec (_cursor a) (_cursor b)) as [->|]; [|done].
    by destruct (_cursor b =? _cursor d).
Qed.

(** X10: on every reachable buffer [begin()] points to the slot [head()]
    reads: dereferencing it gives what [head()] returns. *)
Theorem begin_points_to_head init b :
  Z.of_nat (length init) = cap → reachable init b →
  ∃ x, head b = Returns x ∧ operator_deref (begin b) = Some x.
Proof.
  intros Hinit Hb. pose proof (reachable_wf _ _ Hinit Hb) as Hwf.
  destruct (at_wf b (_head b)) as (x & Hx & Hat); [done|by destruct Hwf|].
  exists x. split; [done|]. rewrite begin_wf by done.
  destruct Hwf as [_ _ Hh _ _ _].
  unfold operator_deref, advanced, slot; cbn.
  destruct (Z.ltb_spec (_head b + 0) cap); [|lia].
  rewrite Z.add_0_r. by destruct (Z.leb_spec 0 (_head b)); [|lia].
Qed.

(** X11: on a reachable buffer with a live element [begin()] differs from
    [end()], also when the buffer is full and the two are at the same slot
    of the storage: the traversal of a buffer that is not empty yields at
    least one element. *)
Theorem begin_ne_end init b :
  Z.of_nat (length init) = cap → reachable init b → 0 < size b →
  operator_ne (begin b) (end_ b) = true.
Proof.
  intros Hinit Hb. pose proof (reachable_wf _ _ Hinit Hb) as Hwf.
  rewrite size_wf, begin_wf, end_wf by done. intros Hpos.
  destruct Hwf as [Hlen Hcap Hh Ht Hs Hc].
  unfold operator_ne, operator_eq, advanced, written, unwritten, slot in *.
  destruct (Z.eqb_spec cap 1); run_calls.
Qed.

(** X12: the traversal of a reachable buffer yields its live elements,
    oldest first, exactly when the buffer is full, or has one slot only, or
    was written to and [_tail] is not the last slot; it then needs no more
    rounds than there are live elements. *)
Theorem traversal_yields_live_elements init os b :
  Z.of_nat (length init) = cap → run os (CircularBuffer init) = Some b →
  ((∃ fuel, elements fuel b = Finished (queue os))
   ↔ size b = cap ∨ cap = 1 ∨ (_current b ≠ 0 ∧ _tail b + 1 < cap))
  ∧ (size b = cap ∨ cap = 1 ∨ (_current b ≠ 0 ∧ _tail b + 1 < cap) →
     ∀ fuel, (length (queue os) ≤ fuel)%nat →
       elements fuel b = Finished (queue os)).
Proof.
  intros Hinit Hrun. pose proof (run_holds _ _ _ Hinit Hrun) as Hq.
  pose proof (holds_wf _ _ Hq) as Hwf. rewrite size_wf by done.
  assert (iterable b
          ↔ _size b = cap ∨ cap = 1 ∨ (_current b ≠ 0 ∧ _tail b + 1 < cap))
    as Hit.
  { unfold iterable. destruct Hwf as [_ _ _ Ht _ Hc]. split.
    - intros [?|[[[Hcur _] ?]|?]]; [by left| |by right; left].
      right; right. lia.
    - intros [?|[?|[Hcur ?]]]; [by left|by right; right|].
      right; left. split; [|done].
      destruct Hc as [(_ & _ & _ & Hzero)|Hw]; [lia|done]. }
  rewrite <- Hit. split; [by apply elements_iff_iterable|].
  intros Hi fuel Hfuel. by apply elements_iterable.
Qed.

(** X13: on a reachable buffer of more than one slot that is not full and
    whose [_tail] is the last slot, no number of increments takes [begin()]
    to an iterator equal to [end()], and the traversal is never finished. *)
Theorem traversal_unfinished init b :
  Z.of_nat (length init) = cap → reachable init b →
  1 < cap → size b < cap → _tail b = cap - 1 →
  (∀ n, operator_eq (Nat.iter n operator_incr (begin b)) (end_ b) = false)
  ∧ (∀ fuel, elements fuel b = Unfinished).
Proof.
  intros Hinit Hb Hcap. pose proof (reachable_wf _ _ Hinit Hb) as Hwf.
  rewrite size_wf by done. intros Hsz Htl.
  assert (stuck b) as Hst by (unfold stuck; lia).
  split; [|intros fuel; by apply elements_stuck].
  intros n. apply iterate_stuck; [done..|rewrite begin_wf by done; done|].
  rewrite begin_wf by done. destruct Hwf as [_ _ Hh _ _ _].
  unfold advanced, slot; cbn.
  destruct (Z.ltb_spec (_head b + 0) cap); lia.
Qed.

(** X14: the traversal of a new buffer of more than one slot, of size [0],
    yields one element, the value the first slot of the storage holds. *)
Theorem traversal_of_unwritten_buffer init fuel :
  Z.of_nat (length init) = cap → 1 < cap →
  size (CircularBuffer init) = 0
  ∧ ∃ x, init !! 0%nat = Some x
         ∧ elements (S fuel) (CircularBuffer init) = Finished [x].
Proof.
  intros Hinit Hcap. split; [done|].
  apply (elements_unwritten (CircularBuffer init) fuel);
    [by apply wf_CircularBuffer|by repeat split|done].
Qed.

(** ** The counters and the layout of the live elements *)

Lemma mod_succ m :
  (m + 1) mod cap = if m mod cap + 1 <? cap then m mod cap + 1 else 0.
Proof.
  rewrite <- Z.add_mod_idemp_l by lia.
  pose proof (Z.mod_pos_bound m cap ltac:(lia)).
  destruct (Z.ltb_spec (m mod cap + 1) cap).
  - by rewrite Z.mod_small by lia.
  - replace (m mod cap + 1) with cap by lia. by rewrite Z.mod_same by lia.
Qed.

Lemma pushed_counters val b m :
  wf b → 0 <= m → _size b = Z.min m cap →
  (m = 0 → unwritten b) →
  (0 < m → _current b = _tail b + 1 ∧ _tail b = (m - 1) mod cap
           ∧ _head b = if m <=? cap then 0 else m mod cap) →
  _current (pushed val b) = _tail (pushed val b) + 1
  ∧ _tail (pushed val b) = m mod cap
  ∧ _head (pushed val b) = (if m + 1 <=? cap then 0 else (m + 1) mod cap)
  ∧ _size (pushed val b) = Z.min (m + 1) cap.
Proof.
  intros [Hlen Hcap Hh Ht Hs _] Hm Hsz Hzero Hpos. unfold pushed; cbn.
  destruct (Z.eq_dec m 0) as [->|Hne].
  - destruct (Hzero eq_refl) as (Hh0 & Ht0 & Hs0 & Hc0).
    rewrite Hh0, Hs0, Hc0, Z.mod_0_l by lia. run_calls.
  - destruct (Hpos ltac:(lia)) as (Hcur & Htl & Hhd).
    pose proof (mod_succ (m - 1)) as Hm1. pose proof (mod_succ m) as Hm2.
    replace (m - 1 + 1) with m in Hm1 by lia.
    pose proof (Z.mod_pos_bound m cap ltac:(lia)).
    pose proof (Z.mod_pos_bound (m + 1) cap ltac:(lia)).
    assert (m = cap → m mod cap = 0) as Hsame
      by (intros ->; apply Z.mod_same; lia).
    rewrite Hcur, Hhd, Hsz. rewrite <- Htl in Hm1.
    rewrite Hm2. rewrite Hm1 in *. clear Hm1 Hm2.
    destruct (Z.ltb_spec (_tail b + 1) cap), (Z.leb_spec m cap),
      (Z.leb_spec (m + 1) cap), (Z.ltb_spec (Z.min m cap) cap);
      try lia; repeat split; try lia;
      destruct (Z.ltb_spec (0 + 1) cap); try lia;
      destruct (Z.ltb_spec (_tail b + 1 + 1) cap); lia.
Qed.

Lemma push_all_cons val vals b :
  wf b → push_all (val :: vals) b = push_all vals (pushed val b).
Proof.
  intros Hwf.
  change (push_all (val :: vals) b)
    with (match push_back val b with
          | (Returns _, b') => push_all vals b'
          | (Throws e, b') => (Throws e, b')
          end).
  by rewrite push_back_wf.
Qed.

Lemma push_all_counters vals :
  ∀ b m, wf b → 0 <= m → _size b = Z.min m cap →
    (m = 0 → unwritten b) →
    (0 < m → _current b = _tail b + 1 ∧ _tail b = (m - 1) mod cap
             ∧ _head b = if m <=? cap then 0 else m mod cap) →
    vals ≠ [] →
    _current (snd (push_all vals b)) = _tail (snd (push_all vals b)) + 1
    ∧ _tail (snd (push_all vals b))
      = (m + Z.of_nat (length vals) - 1) mod cap
    ∧ _head (snd (push_all vals b))
      = (if m + Z.of_nat (length vals) <=? cap then 0
         else (m + Z.of_nat (length vals)) mod cap)
    ∧ _size (snd (push_all vals b)) = Z.min (m + Z.of_nat (length vals)) cap.
Proof.
  induction vals as [|val vals IH]; intros b m Hwf Hm Hsz Hzero Hpos Hne;
    [done|].
  rewrite push_all_cons by done.
  destruct (pushed_counters val b m) as (Hc & Ht & Hh & Hs); [done..|].
  destruct vals as [|val' vals].
  - cbn [push_all foldr mret M_ret snd length].
    replace (m + Z.of_nat 1) with (m + 1) by lia.
    replace (m + 1 - 1) with m by lia. done.
  - replace (m + Z.of_nat (length (val :: val' :: vals)))
      with (m + 1 + Z.of_nat (length (val' :: vals)))
      by (cbn [length]; lia).
    apply IH; [by apply wf_pushed|lia|done|lia| |done].
    intros _. by replace (m + 1 - 1) with m by lia.
Qed.

(** X16: after [n >= 1] values are pushed into a new buffer, [_tail] is
    [(n - 1) mod cap], the write cursor is one past it, [_head] is [0] as
    long as [n <= cap] and [n mod cap] afterwards, and [_size] is the
    lesser of [n] and [cap]. *)
Theorem counters_after_pushes init vals :
  Z.of_nat (length init) = cap → vals ≠ [] →
  ∃ b, push_all vals (CircularBuffer init) = (Returns tt, b)
       ∧ _tail b = (Z.of_nat (length vals) - 1) mod cap
       ∧ _current b = _tail b + 1
       ∧ _head b = (if Z.of_nat (length vals) <=? cap then 0
                    else Z.of_nat (length vals) mod cap)
       ∧ _size b = Z.min (Z.of_nat (length vals)) cap.
Proof.
  intros Hinit Hne.
  destruct (push_all_holds vals _ _ (holds_CircularBuffer _ Hinit))
    as (b & Hb & _).
  exists b. split; [done|].
  destruct (push_all_counters vals (CircularBuffer init) 0)
    as (Hc & Ht & Hh & Hs);
    [by apply wf_CircularBuffer|lia|cbn; lia|by repeat split|lia|done|].
  rewrite Hb in *. cbn [snd] in *. rewrite Z.add_0_l in *. done.
Qed.

(** X17: after any run the live elements lie in the storage from [_head]
    on, circularly: the live element number [i], counted from the oldest,
    is in the slot [(_head + i) mod cap], and when there is a live element
    [_tail] is the slot of the newest, [(_head + _size - 1) mod cap]. *)
Theorem live_elements_layout init os b :
  Z.of_nat (length init) = cap → run os (CircularBuffer init) = Some b →
  (∀ (i : nat) x, queue os !! i = Some x →
     c b !! Z.to_nat ((_head b + Z.of_nat i) mod cap) = Some x)
  ∧ (0 < size b → _tail b = (_head b + _size b - 1) mod cap).
Proof.
  intros Hinit Hrun. pose proof (run_holds _ _ _ Hinit Hrun) as Hq.
  pose proof (holds_wf _ _ Hq) as Hwf. pose proof (holds_size _ _ Hq) as Hsz.
  rewrite size_wf by done. destruct Hwf as [Hlen Hcap Hh Ht Hs Hc]. split.
  - intros i x Hx. pose proof (lookup_lt_Some _ _ _ Hx).
    rewrite <- slot_mod by lia. by apply (holds_slots _ _ Hq).
  - intros Hpos.
    replace (_head b + _size b - 1) with (_head b + (_size b - 1)) by lia.
    rewrite <- slot_mod by lia. unfold slot, written, unwritten in *.
    run_calls.
Qed.

(** X18: a call on a reachable buffer either returns or throws and leaves
    the buffer as it was; only [place_back] on a full buffer throws, an
    [overflow_error], and only [pop] on an empty one, an
    [underflow_error]. *)
Theorem calls_throw_without_effect init b o :
  Z.of_nat (length init) = cap → reachable init b →
  fst (exec o b) = Returns tt
  ∨ (exec o b = (Throws overflow_error, b)
     ∧ (∃ val, o = PlaceBack val) ∧ size b = cap)
  ∨ (exec o b = (Throws underflow_error, b) ∧ o = Pop ∧ size b = 0).
Proof.
  intros Hinit Hb. pose proof (reachable_wf _ _ Hinit Hb) as Hwf.
  rewrite size_wf by done. pose proof (wf_size _ Hwf) as Hs.
  destruct o as [val|val|]; cbn [exec].
  - left. by rewrite push_back_wf.
  - rewrite place_back_wf by done.
    destruct (Z.ltb_spec (_size b) cap); [by left|].
    right; left. split; [done|]. split; [by exists val|lia].
  - rewrite pop_wf by done.
    destruct (Z.leb_spec (_size b) 0); [|by left].
    right; right. split; [done|]. split; [done|lia].
Qed.

Lemma run_place_back_holds vals :
  ∀ q b, holds q b → Z.of_nat (length q + length vals) <= cap →
    run (PlaceBack <$> vals) b = run (PushBack <$> vals) b.
Proof.
  induction vals as [|val vals IH]; intros q b Hq Hlen; [done|].
  pose proof (holds_wf _ _ Hq) as Hwf. pose proof (holds_size _ _ Hq) as Hsz.
  cbn [fmap list_fmap run exec].
  rewrite place_back_wf, push_back_wf by done. cbn [length] in Hlen.
  destruct (Z.ltb_spec (_size b) cap); [|lia].
  apply (IH (queue_step q (PushBack val))); [by apply holds_pushed|].
  cbn [queue_step]. destruct (Z.ltb_spec (Z.of_nat (length q)) cap); [|lia].
  rewrite length_app; cbn [length]. lia.
Qed.

(** X19: as long as no more than [cap] values are inserted into a new
    buffer, inserting them with [place_back] and with [push_back] gives the
    same buffer; with exactly [cap] values it is full, and a further
    [place_back] throws. *)
Theorem place_back_as_push_back init vals :
  Z.of_nat (length init) = cap → Z.of_nat (length vals) <= cap →
  ∃ b, run (PlaceBack <$> vals) (CircularBuffer init) = Some b
       ∧ run (PushBack <$> vals) (CircularBuffer init) = Some b
       ∧ size b = Z.of_nat (length vals)
       ∧ (Z.of_nat (length vals) = cap →
          ∀ val, place_back val b = (Throws overflow_error, b)).
Proof.
  intros Hinit Hlen.
  destruct (holds_run (PushBack <$> vals) _ _ (holds_CircularBuffer _ Hinit))
    as (b & Hb & Hq).
  rewrite queue_push_all in Hq by (cbn; lia). cbn [app] in Hq.
  rewrite (proj2 (Nat.sub_0_le _ _)), drop_0 in Hq by lia.
  pose proof (holds_wf _ _ Hq) as Hwf. pose proof (holds_size _ _ Hq) as Hsz.
  exists b. split; [|split; [done|]].
  - rewrite <- Hb.
    apply (run_place_back_holds vals []);
      [by apply holds_CircularBuffer|cbn; lia].
  - split; [by rewrite size_wf|]. intros Hfull val.
    rewrite place_back_wf by done.
    by destruct (Z.ltb_spec (_size b) cap); [lia|].
Qed.

End WithElements.

(** ** A buffer of three integers

    Pushing [1], [2], [3] fills the buffer; pushing [4] evicts [1]; [pop]
    removes [2]; [place_back] of [5] fills the buffer again and
    [place_back] of [6] overflows. *)

Example push_3 :
  (elements 3 <$> run [PushBack 1; PushBack 2; PushBack 3]
                    (CircularBuffer 3 [0; 0; 0]))
  = Some (Finished [1; 2; 3]).
Proof. reflexivity. Qed.

Example push_4 :
  (elements 3 <$> run [PushBack 1; PushBack 2; PushBack 3; PushBack 4]
                    (CircularBuffer 3 [0; 0; 0]))
  = Some (Finished [2; 3; 4]).
Proof. reflexivity. Qed.

Example push_4_pop :
  run [PushBack 1; PushBack 2; PushBack 3; PushBack 4; Pop]
    (CircularBuffer 3 [0; 0; 0])
  = Some (Build [4; 2; 3] 2 0 2 1 3)
  ∧ head (Build [4; 2; 3] 2 0 2 1 3) = Returns 3
  ∧ elements 2 (Build [4; 2; 3] 2 0 2 1 3) = Finished [3; 4].
Proof. repeat split. Qed.

Example push_4_pop_place_back :
  place_back 5 (Build [4; 2; 3] 2 0 2 1 3)
  = (Returns tt, Build [4; 5; 3] 2 1 3 2 3)
  ∧ place_back 6 (Build [4; 5; 3] 2 1 3 2 3)
    = (Throws overflow_error, Build [4; 5; 3] 2 1 3 2 3).
Proof. split; reflexivity. Qed.

(** ** The properties on buffers of integers *)

(** C1, where the code departs from it: with three slots, after
    [push_back] of [1], [2] and [3] and one [pop] the buffer has two live
    elements, [2] and [3], and [_tail] is the last slot, so [end()] points
    one past the storage and is not marked done. No number of increments
    takes [begin()] to an iterator equal to [end()], and the traversal loop
    is never finished. *)
Theorem traversal_never_reaches_end :
  ∃ b : t,
    run [PushBack 1; PushBack 2; PushBack 3; Pop] (CircularBuffer 3 [0; 0; 0])
    = Some b
    ∧ size b = 2
    ∧ queue 3 [PushBack 1; PushBack 2; PushBack 3; Pop] = [2; 3]
    ∧ (∀ n, operator_eq (Nat.iter n operator_incr (begin b)) (end_ b) = false)
    ∧ (∀ fuel, elements fuel b = Unfinished).
Proof.
  eexists. split; [reflexivity|]. split; [reflexivity|]. split; [reflexivity|].
  set (b := Build [1; 2; 3] 1 2 2 3 3).
  assert (wf 3 b) as Hwf.
  { apply (reachable_wf 3 ltac:(lia) ltac:(unfold INT_MAX; lia) [0; 0; 0]);
      [reflexivity|].
    by exists [PushBack 1; PushBack 2; PushBack 3; Pop]. }
  assert (stuck 3 b) as Hst by (unfold stuck; cbn; lia).
  split.
  - intros n. apply (iterate_stuck 3); [lia|unfold INT_MAX; lia|done..|].
    change (0 <= 1 < 3). lia.
  - intros fuel. apply (elements_stuck 3); [lia|unfold INT_MAX; lia|done..].
Qed.

(** C2, where the code departs from it: with two slots and no value
    pushed, [size()] is [0] and yet the traversal yields one element, the
    value the first slot of the storage happens to hold. *)
Theorem traversal_of_new_buffer :
  push_all [] (CircularBuffer 2 [7; 8]) = (Returns tt, CircularBuffer 2 [7; 8])
  ∧ size (CircularBuffer 2 [7; 8]) = 0
  ∧ full (CircularBuffer 2 [7; 8]) = false
  ∧ ∀ fuel, elements (S fuel) (CircularBuffer 2 [7; 8]) = Finished [7].
Proof.
  split; [reflexivity|]. split; [reflexivity|]. split; [reflexivity|].
  intros fuel.
  destruct (elements_unwritten 2 ltac:(lia) ltac:(unfold INT_MAX; lia)
              (CircularBuffer 2 [7; 8]) fuel) as (x & Hx & Hfuel).
  - by apply wf_CircularBuffer.
  - by repeat split.
  - lia.
  - injection Hx as <-. exact Hfuel.
Qed.

Lemma push_back_beyond_capacity_witness :
  ∃ b : t,
    push_all [1; 2; 3] (CircularBuffer 2 [0; 0]) = (Returns tt, b)
    ∧ size b = 2
    ∧ ∀ fuel, (2 ≤ fuel)%nat → elements fuel b = Finished [2; 3].
Proof.
  apply (push_back_beyond_capacity 2 ltac:(lia) ltac:(unfold INT_MAX; lia)
           [0; 0] [1; 2; 3] 1%nat); [reflexivity|lia|reflexivity].
Defined.

Lemma place_back_overflow_witness :
  reachable 2 [0; 0] (Build [1; 2] 0 1 2 2 2)
  ∧ ((∃ e, fst (place_back 9 (Build [1; 2] 0 1 2 2 2)) = Throws e)
     ↔ size (Build [1; 2] 0 1 2 2 2) = 2)
  ∧ (size (Build [1; 2] 0 1 2 2 2) = 2 →
       place_back 9 (Build [1; 2] 0 1 2 2 2)
       = (Throws overflow_error, Build [1; 2] 0 1 2 2 2))
  ∧ (size (Build [1; 2] 0 1 2 2 2) < 2 →
       fst (place_back 9 (Build [1; 2] 0 1 2 2 2)) = Returns tt
       ∧ place_back 9 (Build [1; 2] 0 1 2 2 2)
         = push_back 9 (Build [1; 2] 0 1 2 2 2)).
Proof.
  assert (reachable 2 [0; 0] (Build [1; 2] 0 1 2 2 2)) as Hb
    by (exists [PushBack 1; PlaceBack 2]; reflexivity).
  split; [exact Hb|].
  apply (place_back_overflow 2 ltac:(lia) ltac:(unfold INT_MAX; lia)
           [0; 0] _ 9); [reflexivity|exact Hb].
Defined.

Lemma pop_underflow_witness :
  run [PushBack 1; PushBack 2; PushBack 3] (CircularBuffer 3 [0; 0; 0])
  = Some (Build [1; 2; 3] 0 2 3 3 3)
  ∧ ∃ b' : t,
      pop (Build [1; 2; 3] 0 2 3 3 3) = (Returns tt, b')
      ∧ _head b' = 1 ∧ size b' = 2 ∧ head b' = Returns 2.
Proof.
  split; [reflexivity|].
  destruct (pop_underflow 3 ltac:(lia) ltac:(unfold INT_MAX; lia) [0; 0; 0]
              [PushBack 1; PushBack 2; PushBack 3] (Build [1; 2; 3] 0 2 3 3 3)
              eq_refl eq_refl) as (_ & _ & Hpop).
  destruct Hpop as (b' & Hb' & Hh & _ & Hsz & Hx); [reflexivity|].
  exists b'. split; [exact Hb'|]. split; [exact Hh|]. split; [exact Hsz|].
  destruct Hx as (x & Hx & Hhead); [change (2 <= 3); lia|].
  injection Hx as <-. exact Hhead.
Defined.

(** C6, where the code departs from it: [head()] and [tail()] are the
    checked accesses [c.at(_head)] and [c.at(_tail)] and nothing else, and
    the two indices are always slots of the storage, so on an empty buffer
    they throw nothing. On a new buffer of one slot, of size [0], both
    return the value the never written slot holds; with three slots, after
    [push_back] of [1] and one [pop], the size is [0] again, [head()]
    returns the content of a slot never written to and [tail()] returns
    the element that was popped. *)
Theorem accessors_of_empty_buffer_return :
  (reachable 1 [7] (CircularBuffer 1 [7])
   ∧ size (CircularBuffer 1 [7]) = 0
   ∧ head (CircularBuffer 1 [7]) = Returns 7
   ∧ tail (CircularBuffer 1 [7]) = Returns 7
   ∧ ¬ (∃ e, head (CircularBuffer 1 [7]) = Throws e)
   ∧ ¬ (∃ e, tail (CircularBuffer 1 [7]) = Throws e))
  ∧ (run [PushBack 1; Pop] (CircularBuffer 3 [7; 8; 9])
     = Some (Build [1; 8; 9] 1 0 0 1 3)
     ∧ size (Build [1; 8; 9] 1 0 0 1 3) = 0
     ∧ head (Build [1; 8; 9] 1 0 0 1 3) = Returns 8
     ∧ tail (Build [1; 8; 9] 1 0 0 1 3) = Returns 1).
Proof.
  split.
  - split; [by exists []|]. repeat (split; [reflexivity|]).
    split; intros [e He]; discriminate He.
  - repeat split; vm_compute; reflexivity.
Qed.

Lemma head_tail_return_witness :
  run [PushBack 1; PushBack 2; Pop; Pop] (CircularBuffer 2 [0; 0])
  = Some (Build [1; 2] 0 1 0 2 2)
  ∧ size (Build [1; 2] 0 1 0 2 2) = 0
  ∧ ∃ x y, head (Build [1; 2] 0 1 0 2 2) = Returns x
           ∧ tail (Build [1; 2] 0 1 0 2 2) = Returns y.
Proof.
  split; [reflexivity|]. split; [reflexivity|].
  destruct (head_tail_return 2 ltac:(lia) ltac:(unfold INT_MAX; lia) [0; 0]
              [PushBack 1; PushBack 2; Pop; Pop] (Build [1; 2] 0 1 0 2 2)
              eq_refl eq_refl) as (x & y & _ & Hx & _ & Hy & _).
  exists x, y. split; [exact Hx|exact Hy].
Defined.

(** C7 fails for the write cursor: in a buffer of one slot, after one
    [push_back], [_current] is [1], the capacity. *)
Lemma current_reaches_capacity :
  ∃ b : t,
    run [PushBack 5] (CircularBuffer 1 [0]) = Some b
    ∧ _current b = 1
    ∧ ¬ (0 <= _current b < 1).
Proof.
  eexists. split; [reflexivity|]. split; [reflexivity|].
  change (¬ (0 <= 1 < 1)). lia.
Qed.

Lemma counters_in_range_witness :
  reachable 1 [0] (Build [5] 0 0 1 1 1)
  ∧ 0 <= _head (Build [5] 0 0 1 1 1) < 1
  ∧ 0 <= _tail (Build [5] 0 0 1 1 1) < 1
  ∧ 0 <= _current (Build [5] 0 0 1 1 1) <= 1
  ∧ 0 <= _size (Build [5] 0 0 1 1 1) <= 1
  ∧ size (Build [5] 0 0 1 1 1) = _size (Build [5] 0 0 1 1 1).
Proof.
  assert (reachable 1 [0] (Build [5] 0 0 1 1 1)) as Hb
    by (exists [PushBack 5]; reflexivity).
  split; [exact Hb|].
  apply (counters_in_range 1 ltac:(lia) ltac:(unfold INT_MAX; lia) [0]);
    [reflexivity|exact Hb].
Defined.

(** C8 fails at capacity [3] and [tail = 0], which is not the last slot:
    the offset [end()] computes, [0 + (1 mod 3)], is the intended
    [(0 + 1) mod 3]. *)
Lemma end_offset_agrees :
  1 < 3 ∧ 0 <= 0 < 3 ∧ 0 ≠ 3 - 1
  ∧ end_offset 0 3 = 0 + 1 mod 3
  ∧ ¬ (end_offset 0 3 ≠ intended_end_offset 0 3).
Proof.
  split; [lia|]. split; [lia|]. split; [lia|]. split; [reflexivity|].
  intros Hne. by apply Hne.
Qed.

Lemma end_offset_differs_witness :
  (1 < 3 ∧ 0 <= 2 < 3)
  ∧ end_offset 2 3 = 3 ∧ intended_end_offset 2 3 = 0
  ∧ end_offset 2 3 ≠ intended_end_offset 2 3.
Proof.
  split; [lia|].
  destruct (end_offset_differs 3 ltac:(lia) ltac:(unfold INT_MAX; lia) 2
              ltac:(lia) ltac:(lia)) as (_ & _ & Hiff & Hlast).
  destruct Hlast as [He Hi]; [reflexivity|].
  split; [exact He|]. split; [exact Hi|]. apply Hiff. reflexivity.
Defined.

Lemma pop_frame_witness :
  0 < size (Build [1; 2; 3] 2 1 3 2 3)
  ∧ pop (Build [1; 2; 3] 2 1 3 2 3) = (Returns tt, Build [1; 2; 3] 0 1 2 2 3)
  ∧ c (Build [1; 2; 3] 0 1 2 2 3) = [1; 2; 3]
  ∧ _tail (Build [1; 2; 3] 0 1 2 2 3) = 1
  ∧ _current (Build [1; 2; 3] 0 1 2 2 3) = 2
  ∧ _capacity (Build [1; 2; 3] 0 1 2 2 3) = 3.
Proof.
  split; [reflexivity|]. split; [reflexivity|].
  apply (pop_frame (Build [1; 2; 3] 2 1 3 2 3) (Build [1; 2; 3] 0 1 2 2 3));
    reflexivity.
Defined.

(** ** The further properties on buffers of integers *)

Lemma push_back_never_terminates_witness :
  Z.of_nat (length [0; 0]) = 2
  ∧ ∃ b : t,
      run [PushBack 1; Pop; Pop; PlaceBack 2; PushBack 3; PushBack 4]
        (CircularBuffer 2 [0; 0]) = Some b
      ∧ ∀ val, fst (push_back val b) = Returns tt.
Proof.
  split; [reflexivity|].
  apply (push_back_never_terminates 2 ltac:(lia) ltac:(unfold INT_MAX; lia) [0; 0]). reflexivity.
Defined.

Lemma observers_agree_witness :
  run [PushBack 1; PushBack 2; PushBack 3] (CircularBuffer 2 [0; 0])
  = Some (Build [3; 2] 1 0 2 1 2)
  ∧ capacity (Build [3; 2] 1 0 2 1 2) = 2
  ∧ Z.of_nat (length (c (Build [3; 2] 1 0 2 1 2))) = 2
  ∧ size (Build [3; 2] 1 0 2 1 2)
    = Z.of_nat (length (queue 2 [PushBack 1; PushBack 2; PushBack 3]))
  ∧ (empty (Build [3; 2] 1 0 2 1 2) = true ↔ size (Build [3; 2] 1 0 2 1 2) = 0)
  ∧ (full (Build [3; 2] 1 0 2 1 2) = true ↔ size (Build [3; 2] 1 0 2 1 2) = 2)
  ∧ (empty (Build [3; 2] 1 0 2 1 2) && full (Build [3; 2] 1 0 2 1 2) = false).
Proof.
  split; [vm_compute; reflexivity|].
  apply (observers_agree 2 ltac:(lia) ltac:(unfold INT_MAX; lia) [0; 0]); vm_compute; reflexivity.
Defined.

Lemma push_back_writes_one_slot_witness :
  reachable 2 [0; 0] (Build [1; 2] 0 1 2 2 2)
  ∧ ∃ b', push_back 9 (Build [1; 2] 0 1 2 2 2) = (Returns tt, b')
          ∧ tail b' = Returns 9
          ∧ size b' = Z.min (size (Build [1; 2] 0 1 2 2 2) + 1) 2
          ∧ _tail b' = _current (Build [1; 2] 0 1 2 2 2) mod 2
          ∧ c b' = <[Z.to_nat (_current (Build [1; 2] 0 1 2 2 2) mod 2) := 9]> (c (Build [1; 2] 0 1 2 2 2))
          ∧ ∀ j, j ≠ Z.to_nat (_current (Build [1; 2] 0 1 2 2 2) mod 2) →
                 c b' !! j = c (Build [1; 2] 0 1 2 2 2) !! j.
Proof.
  assert (reachable 2 [0; 0] (Build [1; 2] 0 1 2 2 2)) as Hb
    by (exists [PushBack 1; PushBack 2]; vm_compute; reflexivity).
  split; [exact Hb|].
  apply (push_back_writes_one_slot 2 ltac:(lia) ltac:(unfold INT_MAX; lia) [0; 0]);
    [reflexivity|exact Hb].
Defined.

Lemma head_kept_by_insertion_witness :
  (reachable 3 [0; 0; 0] (Build [1; 2; 0] 0 1 2 2 3) ∧ 0 < size (Build [1; 2; 0] 0 1 2 2 3))
  ∧ head (snd (place_back 9 (Build [1; 2; 0] 0 1 2 2 3))) = head (Build [1; 2; 0] 0 1 2 2 3)
  ∧ (size (Build [1; 2; 0] 0 1 2 2 3) < 3 → head (snd (push_back 9 (Build [1; 2; 0] 0 1 2 2 3))) = head (Build [1; 2; 0] 0 1 2 2 3)).
Proof.
  assert (reachable 3 [0; 0; 0] (Build [1; 2; 0] 0 1 2 2 3)) as Hb
    by (exists [PushBack 1; PushBack 2]; vm_compute; reflexivity).
  split; [split; [exact Hb|vm_compute; reflexivity]|].
  apply (head_kept_by_insertion 3 ltac:(lia) ltac:(unfold INT_MAX; lia) [0; 0; 0]);
    [reflexivity|exact Hb|vm_compute; reflexivity].
Defined.

Lemma push_back_evicts_oldest_witness :
  (run [PushBack 1; PushBack 2] (CircularBuffer 2 [0; 0]) = Some (Build [1; 2] 0 1 2 2 2)
   ∧ size (Build [1; 2] 0 1 2 2 2) = 2)
  ∧ (2 <= 2 → ∃ x, queue 2 [PushBack 1; PushBack 2] !! 1%nat = Some x
                   ∧ head (snd (push_back 3 (Build [1; 2] 0 1 2 2 2))) = Returns x)
  ∧ (2 = 1 → head (snd (push_back 3 (Build [1; 2] 0 1 2 2 2))) = Returns 3).
Proof.
  split; [split; vm_compute; reflexivity|].
  apply (push_back_evicts_oldest 2 ltac:(lia) ltac:(unfold INT_MAX; lia) [0; 0]); vm_compute; reflexivity.
Defined.

Lemma head_after_pops_witness :
  (run [PushBack 1; PushBack 2; PushBack 3; PushBack 4]
     (CircularBuffer 3 [0; 0; 0]) = Some (Build [4; 2; 3] 1 0 3 1 3)
   ∧ queue 3 [PushBack 1; PushBack 2; PushBack 3; PushBack 4] !! 2%nat
     = Some 4)
  ∧ head (Nat.iter 2 (λ s, snd (pop s)) (Build [4; 2; 3] 1 0 3 1 3)) = Returns 4
  ∧ size (Nat.iter 2 (λ s, snd (pop s)) (Build [4; 2; 3] 1 0 3 1 3)) = size (Build [4; 2; 3] 1 0 3 1 3) - Z.of_nat 2.
Proof.
  split; [split; vm_compute; reflexivity|].
  apply (head_after_pops 3 ltac:(lia) ltac:(unfold INT_MAX; lia) [0; 0; 0]
           [PushBack 1; PushBack 2; PushBack 3; PushBack 4]);
    vm_compute; reflexivity.
Defined.

Lemma traversal_stays_in_storage_witness :
  reachable 3 [0; 0; 0] (Build [1; 2; 3] 2 2 1 3 3) ∧ elements 7 (Build [1; 2; 3] 2 2 1 3 3) ≠ Undefined.
Proof.
  assert (reachable 3 [0; 0; 0] (Build [1; 2; 3] 2 2 1 3 3)) as Hb
    by (exists [PushBack 1; PushBack 2; PushBack 3; Pop; Pop];
        vm_compute; reflexivity).
  split; [exact Hb|].
  apply (traversal_stays_in_storage 3 ltac:(lia) ltac:(unfold INT_MAX; lia) [0; 0; 0]);
    [reflexivity|exact Hb].
Defined.

Lemma operator_incr_lap_witness :
  (0 <= 1 < Z.of_nat (length [7; 8; 9]) ∧ (3 ≤ length [7; 8; 9])%nat)
  ∧ Nat.iter 3 operator_incr (CircularBufferIterator [7; 8; 9] 1)
    = BuildIterator [7; 8; 9] 1 1 true.
Proof.
  split; [split; [cbn; lia|cbn; lia]|].
  apply (operator_incr_lap [7; 8; 9] 1 3); cbn; lia.
Defined.

Lemma begin_points_to_head_witness :
  reachable 3 [0; 0; 0] (Build [4; 2; 3] 1 0 3 1 3)
  ∧ ∃ x, head (Build [4; 2; 3] 1 0 3 1 3) = Returns x ∧ operator_deref (begin (Build [4; 2; 3] 1 0 3 1 3)) = Some x.
Proof.
  assert (reachable 3 [0; 0; 0] (Build [4; 2; 3] 1 0 3 1 3)) as Hb
    by (exists [PushBack 1; PushBack 2; PushBack 3; PushBack 4];
        vm_compute; reflexivity).
  split; [exact Hb|].
  apply (begin_points_to_head 3 ltac:(lia) ltac:(unfold INT_MAX; lia) [0; 0; 0]); [reflexivity|exact Hb].
Defined.

Lemma begin_ne_end_witness :
  (reachable 3 [0; 0; 0] (Build [4; 2; 3] 1 0 3 1 3) ∧ 0 < size (Build [4; 2; 3] 1 0 3 1 3))
  ∧ _cursor (begin (Build [4; 2; 3] 1 0 3 1 3)) = _cursor (end_ (Build [4; 2; 3] 1 0 3 1 3))
  ∧ operator_ne (begin (Build [4; 2; 3] 1 0 3 1 3)) (end_ (Build [4; 2; 3] 1 0 3 1 3)) = true.
Proof.
  assert (reachable 3 [0; 0; 0] (Build [4; 2; 3] 1 0 3 1 3)) as Hb
    by (exists [PushBack 1; PushBack 2; PushBack 3; PushBack 4];
        vm_compute; reflexivity).
  split; [split; [exact Hb|vm_compute; reflexivity]|].
  split; [vm_compute; reflexivity|].
  apply (begin_ne_end 3 ltac:(lia) ltac:(unfold INT_MAX; lia) [0; 0; 0]);
    [reflexivity|exact Hb|vm_compute; reflexivity].
Defined.

Lemma traversal_yields_live_elements_witness :
  run [PushBack 1; PushBack 2; PushBack 3; PushBack 4; Pop]
    (CircularBuffer 3 [0; 0; 0]) = Some (Build [4; 2; 3] 2 0 2 1 3)
  ∧ ((∃ fuel,
        elements fuel (Build [4; 2; 3] 2 0 2 1 3)
        = Finished
            (queue 3 [PushBack 1; PushBack 2; PushBack 3; PushBack 4; Pop]))
     ↔ size (Build [4; 2; 3] 2 0 2 1 3) = 3 ∨ 3 = 1 ∨ (_current (Build [4; 2; 3] 2 0 2 1 3) ≠ 0 ∧ _tail (Build [4; 2; 3] 2 0 2 1 3) + 1 < 3))
  ∧ (size (Build [4; 2; 3] 2 0 2 1 3) = 3 ∨ 3 = 1 ∨ (_current (Build [4; 2; 3] 2 0 2 1 3) ≠ 0 ∧ _tail (Build [4; 2; 3] 2 0 2 1 3) + 1 < 3) →
     ∀ fuel,
       (length (queue 3 [PushBack 1; PushBack 2; PushBack 3; PushBack 4; Pop])
        ≤ fuel)%nat →
       elements fuel (Build [4; 2; 3] 2 0 2 1 3)
       = Finished
           (queue 3 [PushBack 1; PushBack 2; PushBack 3; PushBack 4; Pop])).
Proof.
  split; [vm_compute; reflexivity|].
  apply (traversal_yields_live_elements 3 ltac:(lia) ltac:(unfold INT_MAX; lia) [0; 0; 0]);
    vm_compute; reflexivity.
Defined.

Lemma traversal_unfinished_witness :
  (reachable 3 [0; 0; 0] (Build [1; 2; 3] 2 2 1 3 3) ∧ 1 < 3 ∧ size (Build [1; 2; 3] 2 2 1 3 3) < 3 ∧ _tail (Build [1; 2; 3] 2 2 1 3 3) = 3 - 1)
  ∧ (∀ n, operator_eq (Nat.iter n operator_incr (begin (Build [1; 2; 3] 2 2 1 3 3))) (end_ (Build [1; 2; 3] 2 2 1 3 3)) = false)
  ∧ (∀ fuel, elements fuel (Build [1; 2; 3] 2 2 1 3 3) = Unfinished).
Proof.
  assert (reachable 3 [0; 0; 0] (Build [1; 2; 3] 2 2 1 3 3)) as Hb
    by (exists [PushBack 1; PushBack 2; PushBack 3; Pop; Pop];
        vm_compute; reflexivity).
  split; [split; [exact Hb|repeat split]|].
  apply (traversal_unfinished 3 ltac:(lia) ltac:(unfold INT_MAX; lia) [0; 0; 0]);
    [reflexivity|exact Hb|vm_compute; reflexivity..].
Defined.

Lemma traversal_of_unwritten_buffer_witness :
  (Z.of_nat (length [7; 8; 9]) = 3 ∧ 1 < 3)
  ∧ size (CircularBuffer 3 [7; 8; 9]) = 0
  ∧ ∃ x, [7; 8; 9] !! 0%nat = Some x
         ∧ elements 1 (CircularBuffer 3 [7; 8; 9]) = Finished [x].
Proof.
  split; [split; reflexivity|].
  apply (traversal_of_unwritten_buffer 3 ltac:(lia) ltac:(unfold INT_MAX; lia) [7; 8; 9] 0); reflexivity.
Defined.

Lemma push_back_upto_capacity_witness :
  (Z.of_nat (length [0; 0; 0]) = 3 ∧ Z.of_nat (length [1; 2]) <= 3)
  ∧ ∃ b : t,
      push_all [1; 2] (CircularBuffer 3 [0; 0; 0]) = (Returns tt, b)
      ∧ size b = Z.of_nat (length [1; 2])
      ∧ (full b = true ↔ Z.of_nat (length [1; 2]) = 3)
      ∧ ∀ fuel, (length [1; 2] ≤ fuel)%nat → elements fuel b = Finished [1; 2].
Proof.
  split; [split; [reflexivity|cbn; lia]|].
  apply (push_back_upto_capacity 3 ltac:(lia) ltac:(unfold INT_MAX; lia) [0; 0; 0] [1; 2]);
    [reflexivity|cbn; lia|left; discriminate].
Defined.

Lemma counters_after_pushes_witness :
  Z.of_nat (length [0; 0; 0]) = 3
  ∧ ∃ b : t,
      push_all [1; 2; 3; 4; 5] (CircularBuffer 3 [0; 0; 0]) = (Returns tt, b)
      ∧ _tail b = (Z.of_nat (length [1; 2; 3; 4; 5]) - 1) mod 3
      ∧ _current b = _tail b + 1
      ∧ _head b = (if Z.of_nat (length [1; 2; 3; 4; 5]) <=? 3 then 0
                   else Z.of_nat (length [1; 2; 3; 4; 5]) mod 3)
      ∧ _size b = Z.min (Z.of_nat (length [1; 2; 3; 4; 5])) 3.
Proof.
  split; [reflexivity|].
  apply (counters_after_pushes 3 ltac:(lia) ltac:(unfold INT_MAX; lia) [0; 0; 0] [1; 2; 3; 4; 5]);
    [reflexivity|discriminate].
Defined.

Lemma live_elements_layout_witness :
  run [PushBack 1; PushBack 2; PushBack 3; PushBack 4; Pop]
    (CircularBuffer 3 [0; 0; 0]) = Some (Build [4; 2; 3] 2 0 2 1 3)
  ∧ (∀ (i : nat) x,
       queue 3 [PushBack 1; PushBack 2; PushBack 3; PushBack 4; Pop] !! i
       = Some x →
       c (Build [4; 2; 3] 2 0 2 1 3) !! Z.to_nat ((_head (Build [4; 2; 3] 2 0 2 1 3) + Z.of_nat i) mod 3) = Some x)
  ∧ (0 < size (Build [4; 2; 3] 2 0 2 1 3) → _tail (Build [4; 2; 3] 2 0 2 1 3) = (_head (Build [4; 2; 3] 2 0 2 1 3) + _size (Build [4; 2; 3] 2 0 2 1 3) - 1) mod 3).
Proof.
  split; [vm_compute; reflexivity|].
  apply (live_elements_layout 3 ltac:(lia) ltac:(unfold INT_MAX; lia) [0; 0; 0]); vm_compute; reflexivity.
Defined.

Lemma calls_throw_without_effect_witness :
  reachable 2 [0; 0] (Build [1; 2] 0 1 2 2 2)
  ∧ (fst (exec (PlaceBack 9) (Build [1; 2] 0 1 2 2 2)) = Returns tt
     ∨ (exec (PlaceBack 9) (Build [1; 2] 0 1 2 2 2) = (Throws overflow_error, (Build [1; 2] 0 1 2 2 2))
        ∧ (∃ val, PlaceBack 9 = PlaceBack val) ∧ size (Build [1; 2] 0 1 2 2 2) = 2)
     ∨ (exec (PlaceBack 9) (Build [1; 2] 0 1 2 2 2) = (Throws underflow_error, (Build [1; 2] 0 1 2 2 2))
        ∧ PlaceBack 9 = Pop ∧ size (Build [1; 2] 0 1 2 2 2) = 0)).
Proof.
  assert (reachable 2 [0; 0] (Build [1; 2] 0 1 2 2 2)) as Hb
    by (exists [PushBack 1; PushBack 2]; vm_compute; reflexivity).
  split; [exact Hb|].
  apply (calls_throw_without_effect 2 ltac:(lia) ltac:(unfold INT_MAX; lia) [0; 0]); [reflexivity|exact Hb].
Defined.

Lemma place_back_as_push_back_witness :
  (Z.of_nat (length [0; 0]) = 2 ∧ Z.of_nat (length [1; 2]) <= 2)
  ∧ ∃ b : t,
      run (PlaceBack <$> [1; 2]) (CircularBuffer 2 [0; 0]) = Some b
      ∧ run (PushBack <$> [1; 2]) (CircularBuffer 2 [0; 0]) = Some b
      ∧ size b = Z.of_nat (length [1; 2])
      ∧ (Z.of_nat (length [1; 2]) = 2 →
         ∀ val, place_back val b = (Throws overflow_error, b)).
Proof.
  split; [split; [reflexivity|cbn; lia]|].
  apply (place_back_as_push_back 2 ltac:(lia) ltac:(unfold INT_MAX; lia) [0; 0] [1; 2]); [reflexivity|cbn; lia].
Defined.

End CircularBuffer.
